(** * Spotify listening statistics: [SpotifyHistory] of app.py

    A shallow embedding of the class [SpotifyHistory] (app.py, lines 9-60):
    its constructor, which loads a StreamingHistory JSON export into a
    pandas frame, and its four queries [total_minutes], [top_song],
    [top_artist] and [top_3_songs]; and of the two routes of the
    application that serve them (lines 64-93).

    The class is written against pandas.  The frame operations it calls
    ([read_json], column selection, [astype(float)], [sum], [groupby] with
    [agg sum], [sort_values], [iloc], [head], [iterrows]) are rendered here
    as functions on a small frame type that holds exactly the three columns
    the class keeps, plus the [minutes] column it adds.  Numbers are binary64
    floats, as in the frame, and they are added in the order numpy and
    pandas add them. *)

From Stdlib Require Import ZArith List String Ascii Bool Floats Lia.
From Stdlib Require Import Strings.Byte.
From Stdlib Require Import Sorted Permutation Eqdep_dec.
Import ListNotations.
Local Open Scope string_scope.
Local Open Scope list_scope.
Local Open Scope Z_scope.

(** ** Exceptions *)

(** The Python exceptions the class can let escape. *)
Inductive exn : Set :=
| ValueError
| KeyError
| IndexError
| OverflowError.

Definition result (A : Type) : Type := (exn + A)%type.

Definition ret {A : Type} (a : A) : result A := inr a.
Definition raise {A : Type} (e : exn) : result A := inl e.

Definition bind {A B : Type} (c : result A) (k : A -> result B) : result B :=
  match c with
  | inl e => inl e
  | inr a => k a
  end.

Notation "x <- c ;; k" := (bind c (fun x => k))
  (at level 61, c at next level, right associativity).

(** A comprehension that calls a fallible function on every element, in
    order; the first exception ends it. *)
Fixpoint mapM {A B : Type} (f : A -> result B) (l : list A) : result (list B) :=
  match l with
  | [] => ret []
  | a :: l' => b <- f a ;; bs <- mapM f l' ;; ret (b :: bs)
  end.

(** ** binary64 numbers *)

Module Float64.

(** Conversion of an integer to the nearest binary64 value. *)
Definition of_Z (z : Z) : float :=
  SF2Prim (binary_normalize prec emax z 0 false).

(** Python's [int(x)] on a float: truncation toward zero; [int] of an
    infinity raises OverflowError and [int] of a NaN raises ValueError. *)
Definition py_int (x : float) : result Z :=
  match Prim2SF x with
  | S754_nan => raise ValueError
  | S754_infinity _ => raise OverflowError
  | S754_zero _ => ret 0
  | S754_finite s m e =>
      let a := Z.shiftl (Zpos m) e in
      ret (if s then - a else a)
  end.

(** *** [float(s)] on a string *)

Definition code (c : ascii) : Z := Z.of_N (N_of_ascii c).

(** The blanks [float] strips from both ends of a string of ASCII: tab,
    line feed, vertical tab, form feed, carriage return and space. *)
Definition is_space (c : ascii) : bool :=
  ((9 <=? code c) && (code c <=? 13)) || (code c =? 32).

(** The value of a decimal digit. *)
Definition digit_of (c : ascii) : option Z :=
  let n := code c in
  if (48 <=? n) && (n <=? 57) then Some (n - 48) else None.

Definition is_digit (c : ascii) : bool :=
  match digit_of c with
  | Some _ => true
  | None => false
  end.

(** Underscores may group digits: each must stand between two digits.  The
    string without them, or [None] when one is misplaced; [prev] is the
    character before [s]. *)
Fixpoint group_digits (prev : ascii) (s : string) : option string :=
  match s with
  | EmptyString => if (prev =? "_")%char then None else Some EmptyString
  | String c s' =>
      if (c =? "_")%char then
        if is_digit prev then group_digits c s' else None
      else if (prev =? "_")%char && negb (is_digit c) then None
      else option_map (String c) (group_digits c s')
  end.

Fixpoint lstrip (s : string) : string :=
  match s with
  | EmptyString => EmptyString
  | String c s' => if is_space c then lstrip s' else s
  end.

Fixpoint rstrip (s : string) : string :=
  match s with
  | EmptyString => EmptyString
  | String c s' =>
      match rstrip s' with
      | EmptyString => if is_space c then EmptyString else String c EmptyString
      | r => String c r
      end
  end.

Definition lower (c : ascii) : ascii :=
  if (65 <=? code c) && (code c <=? 90)
  then ascii_of_N (N_of_ascii c + 32) else c.

Fixpoint lowercase (s : string) : string :=
  match s with
  | EmptyString => EmptyString
  | String c s' => String (lower c) (lowercase s')
  end.

(** The digits a string starts with, and what follows them. *)
Fixpoint take_digits (s : string) : list Z * string :=
  match s with
  | EmptyString => ([], EmptyString)
  | String c s' =>
      match digit_of c with
      | Some d => let (ds, r) := take_digits s' in (d :: ds, r)
      | None => ([], s)
      end
  end.

Definition number (ds : list Z) : Z :=
  fold_left (fun acc d => 10 * acc + d) ds 0.

(** The exponent part: nothing, or [e] or [E], a sign or none, and one
    digit or more, to the end of the string. *)
Definition exponent (s : string) : option Z :=
  match s with
  | EmptyString => Some 0
  | String c s' =>
      if (lower c =? "e")%char then
        let (neg, s'') :=
          match s' with
          | String "-"%char t => (true, t)
          | String "+"%char t => (false, t)
          | _ => (false, s')
          end in
        match take_digits s'' with
        | (d :: ds, EmptyString) =>
            Some (if neg then - number (d :: ds) else number (d :: ds))
        | _ => None
        end
      else None
  end.

(** A decimal numeral without its sign, as [(l, m, e)] for the value
    [m * 10^e] written with [l] digits: digits with an optional point among
    them or at either end, at least one digit, and an optional exponent. *)
Definition numeral (s : string) : option (Z * Z * Z) :=
  let (ip, r1) := take_digits s in
  let (fp, r2) :=
    match r1 with
    | String "."%char r => take_digits r
    | _ => ([], r1)
    end in
  match ip ++ fp with
  | [] => None
  | ds =>
      match exponent r2 with
      | Some e =>
          Some (Z.of_nat (List.length ds), number ds, e - Z.of_nat (List.length fp))
      | None => None
      end
  end.

(** The binary64 value nearest to [n / d] for positive [n] and [d], ties
    to even: the quotient is taken to 64 bits and more, and a bit is set
    under it when the division leaves a remainder, so that rounding it
    rounds the exact quotient. *)
Definition nearest_ratio (n d : Z) : float :=
  let s := 64 + Z.log2_up d in
  let (q, r) := Z.div_eucl (Z.shiftl n s) d in
  SF2Prim (binary_normalize prec emax
             (2 * q + (if r =? 0 then 0 else 1)) (- (s + 1)) false).

(** The binary64 value nearest to [m * 10^e], for [m] written with [l]
    digits.  Beyond 10^400 the value is infinite and below 10^-400 it is
    zero, whatever the digits. *)
Definition nearest_decimal (l m e : Z) : float :=
  if m =? 0 then 0%float
  else if 400 <? e then infinity
  else if l + e <? - 400 then 0%float
  else if 0 <=? e then of_Z (m * 10 ^ e)
  else nearest_ratio m (10 ^ (- e)).

Definition unsigned (s : string) : option float :=
  let w := lowercase s in
  if (w =? "inf")%string || (w =? "infinity")%string then Some infinity
  else if (w =? "nan")%string then Some nan
  else
    match numeral s with
    | Some (l, m, e) => Some (nearest_decimal l m e)
    | None => None
    end.

(** Python's [float(s)] on a string, [None] standing for the ValueError it
    raises on a string it does not read: blanks around, a sign, and then
    [inf], [infinity] or [nan] in any case of letters, or a decimal numeral,
    which is read to the nearest binary64 value. *)
Definition py_float (s : string) : option float :=
  match group_digits "000"%char s with
  | None => None
  | Some t =>
      match rstrip (lstrip t) with
      | String "-"%char u => option_map PrimFloat.opp (unsigned u)
      | String "+"%char u => unsigned u
      | u => unsigned u
      end
  end.


(** [float] also reads the decimal digits and the blanks of Unicode that
    are not in ASCII, which [py_float] does not.  On a string of which all
    characters are ASCII the two agree; they also agree, in refusing it, on
    a string that holds a character no numeral can contain: an ASCII
    character that is not a digit, a sign, a point, an underscore, a blank
    or a letter of [e], [inf], [infinity] and [nan], or, the string being in
    UTF-8, the first byte (C3 to D8) of a character from U+00C0 to U+063F,
    none of which is a digit or a blank. *)
Definition plain (s : string) : bool :=
  forallb (fun c => code c <? 128) (list_ascii_of_string s).

Definition in_numerals (c : ascii) : bool :=
  is_digit c || is_space c
  || existsb (Ascii.eqb (lower c))
       ["+"; "-"; "."; "_"; "e"; "i"; "n"; "f"; "t"; "y"; "a"]%char.

Definition never_in_numerals (c : ascii) : bool :=
  ((code c <? 128) && negb (in_numerals c))
  || ((195 <=? code c) && (code c <=? 216)).

Definition settled (s : string) : bool :=
  plain s || existsb never_in_numerals (list_ascii_of_string s).

End Float64.

(** ** The export: JSON objects *)

(** One key of a JSON object: not there, there with [null], or there with a
    value. *)
Inductive field (A : Type) : Type :=
| Absent
| Null
| Value (a : A).

Arguments Absent {A}.
Arguments Null {A}.
Arguments Value {A} a.

(** A string under [msPlayed]: one on which [py_float] is [float]. *)
Record Str : Set := {
  chars : string;
  chars_settled : Float64.settled chars = true
}.

(** The scalars [msPlayed] may hold. *)
Inductive scalar : Set :=
| Number (z : Z)
| Text (s : Str)
| Boolean (b : bool).

(** A track or artist name: a JSON string that [float] does not read
    (one that [py_float] refuses, among those on which it is [float]).
    [read_json] tries [float] on the strings of a column and, when it reads
    them all, makes the column one of numbers; with names that are no
    numerals the name columns stay columns of strings, which is what the
    frames of this file hold.  An export in which a name is a numeral is
    outside of what is modelled here. *)
Record Name : Set := {
  text : string;
  text_kept :
    Float64.settled text
    && match Float64.py_float text with Some _ => false | None => true end
    = true
}.

(** One play of the export, cut down to the keys the class reads. *)
Record Event : Set := {
  ev_trackName : field Name;
  ev_artistName : field Name;
  ev_msPlayed : field scalar
}.

Definition present {A : Type} (f : field A) : bool :=
  match f with
  | Absent => false
  | _ => true
  end.

Definition cell {A : Type} (f : field A) : option A :=
  match f with
  | Value a => Some a
  | _ => None
  end.

(** The string a name field holds. *)
Definition text_of (f : field Name) : option string :=
  option_map text (cell f).

(** The name spelled [s] and the string [s] under [msPlayed], for an [s]
    that is one (for another the name is [?] and the string is empty). *)
Definition name (s : string) : Name :=
  match
    bool_dec
      (Float64.settled s
       && match Float64.py_float s with Some _ => false | None => true end)
      true
  with
  | left H => {| text := s; text_kept := H |}
  | right _ => {| text := "?"; text_kept := eq_refl |}
  end.

Definition str (s : string) : Str :=
  match bool_dec (Float64.settled s) true with
  | left H => {| chars := s; chars_settled := H |}
  | right _ => {| chars := ""; chars_settled := eq_refl |}
  end.

(** ** Frames *)

(** Descending order of sums: no group is smaller than a later one. *)
Definition not_below {K : Type} (g h : K * float) : Prop :=
  PrimFloat.ltb (snd g) (snd h) = false.

Module Pandas.

(** One row.  [None] is NaN, the marker pandas puts where a record has no
    value. *)
Record Row : Type := {
  trackName : option string;
  artistName : option string;
  msPlayed : option scalar;
  minutes : option float
}.

Record DataFrame : Type := {
  columns : list string;
  rows : list Row
}.

(** [c in df.columns] *)
Definition has_column (c : string) (df : DataFrame) : bool :=
  existsb (String.eqb c) (columns df).

(** [df.empty]: some axis has length 0. *)
Definition empty (df : DataFrame) : bool :=
  (List.length (columns df) =? 0)%nat || (List.length (rows df) =? 0)%nat.

(** The frame [read_json] builds from a list of records: one row per
    record, a column for every key some record has, NaN where a record
    lacks the key or holds [null]. *)
Definition row_of_record (e : Event) : Row :=
  {| trackName := text_of (ev_trackName e);
     artistName := text_of (ev_artistName e);
     msPlayed := cell (ev_msPlayed e);
     minutes := None |}.

Definition frame_of_records (evs : list Event) : DataFrame :=
  {| columns :=
       (if existsb (fun e => present (ev_trackName e)) evs
        then ["trackName"] else [])
       ++ (if existsb (fun e => present (ev_artistName e)) evs
           then ["artistName"] else [])
       ++ (if existsb (fun e => present (ev_msPlayed e)) evs
           then ["msPlayed"] else []);
     rows := map row_of_record evs |}.

(** [df[cs]]: the frame cut down to the columns [cs]. *)
Definition keep (cs : list string) (r : Row) : Row :=
  let has c := existsb (String.eqb c) cs in
  {| trackName := if has "trackName" then trackName r else None;
     artistName := if has "artistName" then artistName r else None;
     msPlayed := if has "msPlayed" then msPlayed r else None;
     minutes := if has "minutes" then minutes r else None |}.

Definition select (cs : list string) (df : DataFrame) : DataFrame :=
  {| columns := cs; rows := map (keep cs) (rows df) |}.

(** A float as a cell: NaN is the missing value. *)
Definition as_cell (x : float) : option float :=
  if PrimFloat.is_nan x then None else Some x.

(** [astype(float)] on one cell: NaN stays NaN, a number is converted, a
    boolean becomes 1.0 or 0.0, a string goes through [float()], which
    raises ValueError on a string it cannot read. *)
Definition astype_float (c : option scalar) : result (option float) :=
  match c with
  | None => ret None
  | Some (Number z) => ret (Some (Float64.of_Z z))
  | Some (Boolean b) => ret (Some (if b then 1%float else 0%float))
  | Some (Text s) =>
      match Float64.py_float (chars s) with
      | Some x => ret (as_cell x)
      | None => raise ValueError
      end
  end.

(** [x / 60000.0] on one cell. *)
Definition div_cell (c : option float) (d : float) : option float :=
  option_map (fun x => PrimFloat.div x d) c.

Definition set_minutes (m : option float) (r : Row) : Row :=
  {| trackName := trackName r;
     artistName := artistName r;
     msPlayed := msPlayed r;
     minutes := m |}.

(** *** Series.sum()

    NaN cells are filled with 0 and the column is handed to numpy's [add]
    reduction, which sums a contiguous array pairwise: fewer than 8 numbers
    from left to right; up to 128 numbers in eight running sums, one for
    each place modulo 8, which are then added as a tree, and the numbers
    left over after the last full eight added to that one by one; more than
    128 numbers in two parts, the first a multiple of 8 long, each summed in
    the same way. *)
Record lanes : Set := {
  r0 : float; r1 : float; r2 : float; r3 : float;
  r4 : float; r5 : float; r6 : float; r7 : float
}.

Fixpoint unrolled (r : lanes) (l : list float) : lanes * list float :=
  match l with
  | a0 :: a1 :: a2 :: a3 :: a4 :: a5 :: a6 :: a7 :: l' =>
      unrolled
        {| r0 := PrimFloat.add (r0 r) a0; r1 := PrimFloat.add (r1 r) a1;
           r2 := PrimFloat.add (r2 r) a2; r3 := PrimFloat.add (r3 r) a3;
           r4 := PrimFloat.add (r4 r) a4; r5 := PrimFloat.add (r5 r) a5;
           r6 := PrimFloat.add (r6 r) a6; r7 := PrimFloat.add (r7 r) a7 |}
        l'
  | _ => (r, l)
  end.

(** A block of at most 128 numbers. *)
Definition block_sum (l : list float) : float :=
  match l with
  | a0 :: a1 :: a2 :: a3 :: a4 :: a5 :: a6 :: a7 :: l' =>
      let (r, rest) :=
        unrolled
          {| r0 := a0; r1 := a1; r2 := a2; r3 := a3;
             r4 := a4; r5 := a5; r6 := a6; r7 := a7 |}
          l' in
      fold_left PrimFloat.add rest
        (PrimFloat.add
           (PrimFloat.add (PrimFloat.add (r0 r) (r1 r))
              (PrimFloat.add (r2 r) (r3 r)))
           (PrimFloat.add (PrimFloat.add (r4 r) (r5 r))
              (PrimFloat.add (r6 r) (r7 r))))
  | _ => fold_left PrimFloat.add l neg_zero
  end.

(** [fuel] bounds the depth of the halving; the length of the list is
    enough of it. *)
Fixpoint pairwise_sum (fuel : nat) (l : list float) : float :=
  match fuel with
  | S fuel' =>
      let n := List.length l in
      if (128 <? n)%nat then
        let n2 := (n / 2 - (n / 2) mod 8)%nat in
        PrimFloat.add (pairwise_sum fuel' (firstn n2 l))
          (pairwise_sum fuel' (skipn n2 l))
      else block_sum l
  | O => block_sum l
  end.

Definition np_sum (l : list float) : float :=
  pairwise_sum (List.length l) l.

Definition fillna (c : option float) : float :=
  match c with
  | Some x => x
  | None => 0%float
  end.

Definition nansum (cells : list (option float)) : float :=
  np_sum (map fillna cells).

(** *** groupby(...).agg({"minutes": "sum"})

    The groups come out in ascending key order ([sort=True]), one per
    distinct key; a row whose key holds a NaN belongs to no group
    ([dropna=True]).  pandas adds the rows of a group in frame order,
    skipping NaN, with Kahan's compensation: next to the sum of each group
    it keeps the rounding error of the additions so far and takes it off
    the next value; a compensation that is NaN (an infinite sum) is reset
    to 0.  Sum and compensation start at 0. *)
Section GroupBy.
Context {K : Type} (cmp : K -> K -> comparison).

Definition accumulate (st : float * float) (v : option float) : float * float :=
  match v with
  | Some val =>
      let (sumx, compensation) := st in
      let y := PrimFloat.sub val compensation in
      let t := PrimFloat.add sumx y in
      let c := PrimFloat.sub (PrimFloat.sub t sumx) y in
      (t, if PrimFloat.is_nan c then 0%float else c)
  | None => st
  end.

Fixpoint add_to_group (k : K) (v : option float)
  (acc : list (K * (float * float))) : list (K * (float * float)) :=
  match acc with
  | [] => [(k, accumulate (0%float, 0%float) v)]
  | (k', s) :: rest =>
      match cmp k k' with
      | Eq => (k', accumulate s v) :: rest
      | Lt => (k, accumulate (0%float, 0%float) v) :: acc
      | Gt => (k', s) :: add_to_group k v rest
      end
  end.

Definition group_states (key : Row -> option K) (rs : list Row)
  : list (K * (float * float)) :=
  fold_left
    (fun acc r =>
       match key r with
       | Some k => add_to_group k (minutes r) acc
       | None => acc
       end)
    rs [].

Definition groupby_sum (key : Row -> option K) (rs : list Row)
  : list (K * float) :=
  map (fun g => (fst g, fst (snd g))) (group_states key rs).
End GroupBy.

(** *** sort_values("minutes", ascending=False)

    pandas sets the NaN sums aside, has numpy sort the rest
    ([kind="quicksort"]) and puts the NaN sums last.  numpy's quicksort is
    not stable: where two sums are equal, which group comes first depends
    on the number of groups and on the build of numpy.  What it promises is
    taken here as an interface: the groups it was given, in descending
    order of sums.  The class is verified for every sort that keeps this
    promise. *)
Record Quicksort : Type := {
  sort_desc : forall K : Type, list (K * float) -> list (K * float);
  sort_desc_perm :
    forall (K : Type) (l : list (K * float)), Permutation (sort_desc K l) l;
  sort_desc_sorted :
    forall (K : Type) (l : list (K * float)),
      Forall (fun g => PrimFloat.is_nan (snd g) = false) l ->
      StronglySorted not_below (sort_desc K l)
}.

Section SortValues.
Context (qs : Quicksort) {K : Type}.

Definition sort_values (l : list (K * float)) : list (K * float) :=
  sort_desc qs K (filter (fun g => negb (PrimFloat.is_nan (snd g))) l)
  ++ filter (fun g => PrimFloat.is_nan (snd g)) l.

(** [.iloc[0]] *)
Definition iloc0 (l : list (K * float)) : result (K * float) :=
  match l with
  | [] => raise IndexError
  | g :: _ => ret g
  end.

(** [.head(n)] for a count [n] *)
Definition head (n : nat) (l : list (K * float)) : list (K * float) :=
  firstn n l.
End SortValues.

(** A sort that keeps the promise: insertion, which puts a group in front
    of the first group of the sorted rest whose sum is not larger than its
    own.  (It is what numpy does on a short array, on a build without
    vector sorting.) *)
Fixpoint insert_desc {K : Type} (g : K * float) (l : list (K * float))
  : list (K * float) :=
  match l with
  | [] => [g]
  | h :: t =>
      if PrimFloat.ltb (snd g) (snd h)
      then h :: insert_desc g t
      else g :: l
  end.

Definition descending {K : Type} (l : list (K * float)) : list (K * float) :=
  fold_right insert_desc [] l.

End Pandas.

(** ** Keys of the two groupings *)

Definition song_cmp (a b : string * string) : comparison :=
  match String.compare (fst a) (fst b) with
  | Eq => String.compare (snd a) (snd b)
  | c => c
  end.

Definition song_key (r : Pandas.Row) : option (string * string) :=
  match Pandas.trackName r, Pandas.artistName r with
  | Some t, Some a => Some (t, a)
  | _, _ => None
  end.

Definition artist_key (r : Pandas.Row) : option string :=
  Pandas.artistName r.

(** ** A file-like object *)

(** The [BytesIO] the route hands to the constructor: a buffer and a read
    position. *)
Record BytesIO : Type := {
  getvalue : list byte;
  tell : nat
}.

Definition read (f : BytesIO) : list byte * BytesIO :=
  (skipn (tell f) (getvalue f),
   {| getvalue := getvalue f; tell := List.length (getvalue f) |}).

Definition seek (pos : nat) (f : BytesIO) : BytesIO :=
  {| getvalue := getvalue f; tell := pos |}.

(** ** The class *)

Module SpotifyHistory.
Import Pandas.

(** The dictionaries the queries return: keys [song], [artist], [mins] for
    a song and [artist], [mins] for an artist. *)
Record SongStat : Type := {
  song : string;
  artist : string;
  mins : Z
}.

Record ArtistStat : Type := {
  a_artist : string;
  a_mins : Z
}.

Definition cols : list string := ["trackName"; "artistName"; "msPlayed"].

(** Lines 23-30: keep the expected columns, add [minutes]. *)
Definition prepare (df0 : DataFrame) : result DataFrame :=
  let df := select (filter (fun c => has_column c df0) cols) df0 in
  if has_column "msPlayed" df then
    ms <- mapM
            (fun r => x <- astype_float (msPlayed r) ;;
                      ret (set_minutes (div_cell x 60000%float) r))
            (rows df) ;;
    ret {| columns := columns df ++ ["minutes"]; rows := ms |}
  else
    ret {| columns := columns df ++ ["minutes"];
           rows := map (set_minutes (Some 0%float)) (rows df) |}.

(** The constructor on records already read. *)
Definition of_records (evs : list Event) : result DataFrame :=
  prepare (frame_of_records evs).

Section Loading.
(** [pd.read_json] on the text of a whole document and on a text of
    lines; [None] is the ValueError pandas raises on a text it cannot
    read. *)
Variable parse_document : list byte -> option (list Event).
Variable parse_lines : list byte -> option (list Event).

Definition read_json (lines : bool) (f : BytesIO)
  : option (list Event) * BytesIO :=
  let (text, f') := read f in
  ((if lines then parse_lines text else parse_document text), f').

(** Lines 16-21. *)
Definition load (file_like : BytesIO) : result (list Event) * BytesIO :=
  match read_json false file_like with
  | (Some evs, f1) => (ret evs, f1)
  | (None, f1) =>
      let f2 := seek 0 f1 in
      match read_json true f2 with
      | (Some evs, f3) => (ret evs, f3)
      | (None, f3) => (raise ValueError, f3)
      end
  end.

(** [SpotifyHistory(file_like)] *)
Definition init (file_like : BytesIO) : result DataFrame :=
  evs <- fst (load file_like) ;; of_records evs.
End Loading.

Definition total_minutes (df : DataFrame) : result Z :=
  Float64.py_int (nansum (map minutes (rows df))).

Definition grouped_songs (df : DataFrame)
  : result (list (string * string * float)) :=
  if has_column "trackName" df && has_column "artistName" df
  then ret (groupby_sum song_cmp song_key (rows df))
  else raise KeyError.

Definition grouped_artists (df : DataFrame) : result (list (string * float)) :=
  if has_column "artistName" df
  then ret (groupby_sum String.compare artist_key (rows df))
  else raise KeyError.

Definition song_stat (g : string * string * float) : result SongStat :=
  m <- Float64.py_int (snd g) ;;
  ret {| song := fst (fst g); artist := snd (fst g); mins := m |}.

Definition artist_stat (g : string * float) : result ArtistStat :=
  m <- Float64.py_int (snd g) ;;
  ret {| a_artist := fst g; a_mins := m |}.

Section Queries.
(** The sort of the numpy at hand. *)
Variable qs : Quicksort.

Definition top_song (df : DataFrame) : result (option SongStat) :=
  if empty df then ret None
  else
    grouped <- grouped_songs df ;;
    top <- iloc0 (sort_values qs grouped) ;;
    s <- song_stat top ;;
    ret (Some s).

Definition top_artist (df : DataFrame) : result (option ArtistStat) :=
  if empty df then ret None
  else
    g <- grouped_artists df ;;
    top <- iloc0 (sort_values qs g) ;;
    s <- artist_stat top ;;
    ret (Some s).

(** [n=3] is the default of the parameter: [None] is the call without
    it. *)
Definition top_3_songs (df : DataFrame) (n : option nat)
  : result (list SongStat) :=
  let n := match n with Some n => n | None => 3%nat end in
  if empty df then ret []
  else
    grouped <- grouped_songs df ;;
    let topn := head n (sort_values qs grouped) in
    mapM song_stat topn.
End Queries.

End SpotifyHistory.

(** ** The routes *)

Module App.

(** An uploaded file as werkzeug hands it over: its name and its stream.
    The object is false when it has no file name, which is how a form sent
    with no file chosen arrives. *)
Record FileStorage : Type := {
  filename : string;
  stream : BytesIO
}.

(** [not f] for [f = request.files.get("file")]: no such part, or a part
    without a file name. *)
Definition missing (f : option FileStorage) : bool :=
  match f with
  | None => true
  | Some f => (filename f =? "")%string
  end.

(** The values handed to the template [result.html]. *)
Record Stats : Type := {
  total : Z;
  top_song : option SpotifyHistory.SongStat;
  top_artist : option SpotifyHistory.ArtistStat;
  top3 : list SpotifyHistory.SongStat
}.

Inductive response : Type :=
| Redirect (location : string)
| Page (template : string) (context : option Stats).

(** [url_for("index")]: the rule of the route [index] (line 64). *)
Definition index_url : string := "/".

(** Lines 64-66. *)
Definition index : response := Page "index.html" None.

Section Analyze.
Variable qs : Pandas.Quicksort.
Variable parse_document : list byte -> option (list Event).
Variable parse_lines : list byte -> option (list Event).

(** Lines 69-93.  An exception that a step raises leaves the route. *)
Definition analyze (f : option FileStorage) : result response :=
  match f with
  | Some file =>
      if missing f then ret (Redirect index_url)
      else
        let content := fst (read (stream file)) in
        let stream := seek 0 {| getvalue := content; tell := 0 |} in
        stats <- SpotifyHistory.init parse_document parse_lines stream ;;
        total <- SpotifyHistory.total_minutes stats ;;
        top_song <- SpotifyHistory.top_song qs stats ;;
        top_artist <- SpotifyHistory.top_artist qs stats ;;
        top3 <- SpotifyHistory.top_3_songs qs stats None ;;
        ret (Page "result.html"
               (Some {| total := total; top_song := top_song;
                        top_artist := top_artist; top3 := top3 |}))
  | None => ret (Redirect index_url)
  end.
End Analyze.

End App.

(** ** The spec's reading of the same data

    These follow the words of the specification, not the code; the theorems
    below compare them with the class. *)

(** The spec's normalisation of a name: a missing one is the empty
    string. *)
Definition spec_name (f : field Name) : string :=
  match text_of f with
  | Some s => s
  | None => ""
  end.

Definition spec_song_key (e : Event) : string * string :=
  (spec_name (ev_trackName e), spec_name (ev_artistName e)).

(** The milliseconds of a record, a missing field counting 0. *)
Definition spec_ms (e : Event) : Z :=
  match ev_msPlayed e with
  | Value (Number z) => z
  | _ => 0
  end.

(** Floor of the exact sum of [msPlayed/60000]: the quotients have the same
    denominator, so the exact sum is the sum of the milliseconds over
    60000. *)
Definition spec_total_minutes (evs : list Event) : Z :=
  fold_left Z.add (map spec_ms evs) 0 / 60000.

(** Position of the first record of a song in the input. *)
Fixpoint first_occurrence (k : string * string) (evs : list Event) : option nat :=
  match evs with
  | [] => None
  | e :: evs' =>
      if (fst (spec_song_key e) =? fst k)%string && (snd (spec_song_key e) =? snd k)%string
      then Some 0%nat
      else option_map S (first_occurrence k evs')
  end.

(** ** Notions used in the statements *)

(** The minutes of a record: its [msPlayed] converted to binary64 and
    divided by 60000.0, when it holds a number or something read as one. *)
Definition duration_of (c : field scalar) : option float :=
  match Pandas.astype_float (cell c) with
  | inr (Some x) => Some (PrimFloat.div x 60000%float)
  | _ => None
  end.

Definition duration (e : Event) : option float :=
  duration_of (ev_msPlayed e).

(** What a record adds to the total: its minutes, or 0.0 when it has
    none. *)
Definition played_minutes (e : Event) : float :=
  match duration e with
  | Some x => x
  | None => 0%float
  end.

(** The song and the artist a record carries: it carries a song when it
    has a value under both names. *)
Definition song_of (e : Event) : option (string * string) :=
  match text_of (ev_trackName e), text_of (ev_artistName e) with
  | Some t, Some a => Some (t, a)
  | _, _ => None
  end.

Definition artist_of (e : Event) : option string :=
  text_of (ev_artistName e).

Definition is_song (k : string * string) (e : Event) : bool :=
  match song_of e with
  | Some k' => (fst k =? fst k')%string && (snd k =? snd k')%string
  | None => false
  end.

Definition is_artist (k : string) (e : Event) : bool :=
  match artist_of e with
  | Some a => (k =? a)%string
  | None => false
  end.

(** The minutes of the records picked by [p], in the order of the export;
    a record without minutes gives none. *)
Definition minutes_of (p : Event -> bool) (evs : list Event) : list float :=
  flat_map
    (fun e => match duration e with Some x => [x] | None => [] end)
    (filter p evs).

(** Kahan's compensated summation, written out: [c] is the rounding error
    made so far, taken off the next value before it is added. *)
Fixpoint kahan_from (sum c : float) (l : list float) : float :=
  match l with
  | [] => sum
  | val :: l' =>
      let y := PrimFloat.sub val c in
      let t := PrimFloat.add sum y in
      let c' := PrimFloat.sub (PrimFloat.sub t sum) y in
      kahan_from t (if PrimFloat.is_nan c' then 0%float else c') l'
  end.

Definition kahan_sum (l : list float) : float :=
  kahan_from 0%float 0%float l.

(** The summed minutes of a song and of an artist in an export. *)
Definition song_minutes (evs : list Event) (k : string * string) : float :=
  kahan_sum (minutes_of (is_song k) evs).

Definition artist_minutes (evs : list Event) (k : string) : float :=
  kahan_sum (minutes_of (is_artist k) evs).

Definition song_eq_dec (a b : string * string) : {a = b} + {a <> b}.
Proof. decide equality; apply string_dec. Defined.

(** The distinct songs and the distinct artists of an export. *)
Definition songs_of (evs : list Event) : list (string * string) :=
  nodup song_eq_dec
    (flat_map (fun e => match song_of e with Some k => [k] | None => [] end) evs).

Definition artists_of (evs : list Event) : list string :=
  nodup string_dec
    (flat_map (fun e => match artist_of e with Some k => [k] | None => [] end) evs).

(** The rows of a group and what pandas makes of their minutes, in frame
    order. *)
Definition rows_of_key {K : Type} (cmp : K -> K -> comparison)
  (key : Pandas.Row -> option K) (k : K) (rs : list Pandas.Row) : list Pandas.Row :=
  filter
    (fun r => match key r with
              | Some k' => match cmp k k' with Eq => true | _ => false end
              | None => false
              end)
    rs.

Definition sum_of_rows (rs : list Pandas.Row) : float :=
  fst (fold_left Pandas.accumulate (map Pandas.minutes rs) (0%float, 0%float)).

(** The eight running sums of a block all have the property [P]. *)
Definition lanes_all (P : float -> Prop) (r : Pandas.lanes) : Prop :=
  P (Pandas.r0 r) /\ P (Pandas.r1 r) /\ P (Pandas.r2 r) /\ P (Pandas.r3 r)
  /\ P (Pandas.r4 r) /\ P (Pandas.r5 r) /\ P (Pandas.r6 r) /\ P (Pandas.r7 r).

(** A key comparison that is a strict total order. *)
Class KeyOrder {K : Type} (cmp : K -> K -> comparison) : Prop := {
  cmp_eq : forall a b, cmp a b = Eq -> a = b;
  cmp_refl : forall a, cmp a a = Eq;
  cmp_antisym : forall a b, cmp b a = CompOpp (cmp a b);
  cmp_trans : forall a b c, cmp a b = Lt -> cmp b c = Lt -> cmp a c = Lt
}.

(** An order-preserving image of the binary64 values that are not NaN in
    triples of integers under the lexicographic order: class, exponent,
    mantissa. *)
Definition rank (x : spec_float) : Z * Z * Z :=
  match x with
  | S754_nan => (0, 0, 0)
  | S754_infinity s => (if s then -2 else 2, 0, 0)
  | S754_zero _ => (0, 0, 0)
  | S754_finite s m e => if s then (-1, - e, - Zpos m) else (1, e, Zpos m)
  end.

Definition lex_lt (a b : Z * Z * Z) : Prop :=
  let '(a1, a2, a3) := a in
  let '(b1, b2, b3) := b in
  a1 < b1 \/ (a1 = b1 /\ (a2 < b2 \/ (a2 = b2 /\ a3 < b3))).

(** Some record of the export has the key [msPlayed]. *)
Definition has_msPlayed (evs : list Event) : bool :=
  existsb (fun e => present (ev_msPlayed e)) evs.

(** The row the constructor makes of a record. *)
Definition row_of (has_ms : bool) (e : Event) : Pandas.Row :=
  {| Pandas.trackName := text_of (ev_trackName e);
     Pandas.artistName := text_of (ev_artistName e);
     Pandas.msPlayed := cell (ev_msPlayed e);
     Pandas.minutes := if has_ms then duration e else Some 0%float |}.

(** A record with all three fields. *)
Definition play (t a : string) (ms : Z) : Event :=
  {| ev_trackName := Value (name t);
     ev_artistName := Value (name a);
     ev_msPlayed := Value (Number ms) |}.

(** The scenario of the specification: three plays, two of the same song. *)
Definition scenario : list Event :=
  [play "A" "X" 90000; play "B" "X" 30000; play "A" "X" 30000].

(** The frame the constructor builds from it. *)
Definition scenario_frame : Pandas.DataFrame :=
  Eval vm_compute in
    match SpotifyHistory.of_records scenario with
    | inr df => df
    | inl _ => {| Pandas.columns := []; Pandas.rows := [] |}
    end.

(** The scenario with other names, one of them missing. *)
Definition renamed_scenario : list Event :=
  [ {| ev_trackName := Absent; ev_artistName := Value (name "Y");
       ev_msPlayed := Value (Number 90000) |};
    play "D" "Z" 30000; play "E" "Y" 30000 ].

Definition renamed_frame : Pandas.DataFrame :=
  Eval vm_compute in
    match SpotifyHistory.of_records renamed_scenario with
    | inr df => df
    | inl _ => {| Pandas.columns := []; Pandas.rows := [] |}
    end.

(** Eight plays that make one minute. *)
Definition one_minute_in_eight : list Event :=
  [ play "A" "X" 6700; play "B" "X" 8293; play "C" "X" 2462;
    play "D" "X" 11734; play "E" "X" 9553; play "F" "X" 8545;
    play "G" "X" 5262; play "H" "X" 7451 ].

Definition one_minute_frame : Pandas.DataFrame :=
  Eval vm_compute in
    match SpotifyHistory.of_records one_minute_in_eight with
    | inr df => df
    | inl _ => {| Pandas.columns := []; Pandas.rows := [] |}
    end.

(** Three plays of one song that make one minute. *)
Definition one_minute_in_three : list Event :=
  [play "A" "X" 50699; play "A" "X" 3531; play "A" "X" 5770].

Definition one_minute_in_three_frame : Pandas.DataFrame :=
  Eval vm_compute in
    match SpotifyHistory.of_records one_minute_in_three with
    | inr df => df
    | inl _ => {| Pandas.columns := []; Pandas.rows := [] |}
    end.

(** The records the constructor gets out of a text: those of the document
    reader, or else those of the lines reader. *)
Definition loaded (parse_document parse_lines : list byte -> option (list Event))
  (text : list byte) : option (list Event) :=
  match parse_document text with
  | Some evs => Some evs
  | None => parse_lines text
  end.

(** The part of an upload that has not been read yet. *)
Definition unread (file : App.FileStorage) : list byte :=
  skipn (tell (App.stream file)) (getvalue (App.stream file)).

(** The groups of a table are in strictly ascending key order. *)
Definition key_sorted {K V : Type} (cmp : K -> K -> comparison)
  (l : list (K * V)) : Prop :=
  StronglySorted (fun a b => cmp a b = Lt) (map fst l).

(** What a table holds for a key. *)
Fixpoint lookup {K V : Type} (cmp : K -> K -> comparison) (k : K)
  (l : list (K * V)) : option V :=
  match l with
  | [] => None
  | (k', s) :: t =>
      match cmp k k' with
      | Eq => Some s
      | _ => lookup cmp k t
      end
  end.

(** The text [[{"msPlayed":"abc"}]]: a JSON array of one object, whose
    [msPlayed] is a string that is no number; and the record it spells. *)
Definition quoted (s : string) : string :=
  String (ascii_of_nat 34) (s ++ String (ascii_of_nat 34) "").

Definition unreadable_duration_text : string :=
  "[{" ++ quoted "msPlayed" ++ ":" ++ quoted "abc" ++ "}]".

Definition unreadable_duration_upload : list byte :=
  list_byte_of_string unreadable_duration_text.

Definition unreadable_duration_record : Event :=
  {| ev_trackName := Absent; ev_artistName := Absent;
     ev_msPlayed := Value (Text (str "abc")) |}.

(** Two exports of the same two plays of one minute, in the two orders. *)
Definition level_BA : list Event := [play "B" "X" 60000; play "A" "X" 60000].
Definition level_AB : list Event := [play "A" "X" 60000; play "B" "X" 60000].

Definition level_BA_frame : Pandas.DataFrame :=
  Eval vm_compute in
    match SpotifyHistory.of_records level_BA with
    | inr df => df
    | inl _ => {| Pandas.columns := []; Pandas.rows := [] |}
    end.

Definition level_AB_frame : Pandas.DataFrame :=
  Eval vm_compute in
    match SpotifyHistory.of_records level_AB with
    | inr df => df
    | inl _ => {| Pandas.columns := []; Pandas.rows := [] |}
    end.

(** The same with two artists. *)
Definition level_artists_BA : list Event :=
  [play "S" "B" 60000; play "T" "A" 60000].
Definition level_artists_AB : list Event :=
  [play "T" "A" 60000; play "S" "B" 60000].

Definition level_artists_BA_frame : Pandas.DataFrame :=
  Eval vm_compute in
    match SpotifyHistory.of_records level_artists_BA with
    | inr df => df
    | inl _ => {| Pandas.columns := []; Pandas.rows := [] |}
    end.

Definition level_artists_AB_frame : Pandas.DataFrame :=
  Eval vm_compute in
    match SpotifyHistory.of_records level_artists_AB with
    | inr df => df
    | inl _ => {| Pandas.columns := []; Pandas.rows := [] |}
    end.
(** * Facts about binary64 comparison *)

Lemma SFltb_rank (x y : spec_float) :
  x <> S754_nan -> y <> S754_nan ->
  (SFltb x y = true <-> lex_lt (rank x) (rank y)).
Proof.
  intros Hx Hy. unfold SFltb, SFcompare.
  destruct x as [sx|sx| |sx mx ex], y as [sy|sy| |sy my ey];
    try congruence; cbn [rank lex_lt];
    try (destruct sx; try destruct sy; cbn; split; intros;
         try discriminate; try lia; reflexivity).
  destruct sx, sy; cbn;
    try (split; intros; try discriminate; try lia; reflexivity).
  - destruct (Z.compare_spec ex ey);
      [ | split; intros; try discriminate; lia
        | split; intros; try reflexivity; lia ].
    subst. change (Pos.compare_cont Eq mx my) with (Pos.compare mx my).
    destruct (Pos.compare_spec mx my); cbn; split; intros;
      try discriminate; try reflexivity; lia.
  - destruct (Z.compare_spec ex ey);
      [ | split; intros; try reflexivity; lia
        | split; intros; try discriminate; lia ].
    subst. change (Pos.compare_cont Eq mx my) with (Pos.compare mx my).
    destruct (Pos.compare_spec mx my); cbn; split; intros;
      try discriminate; try reflexivity; lia.
Qed.

Lemma is_nan_spec (x : float) :
  PrimFloat.is_nan x = true <-> Prim2SF x = S754_nan.
Proof.
  unfold PrimFloat.is_nan. rewrite eqb_spec. unfold SFeqb, SFcompare.
  destruct (Prim2SF x) as [s|s| |s m e]; cbn.
  - destruct s; cbn; split; intros; discriminate.
  - destruct s; cbn; split; intros; discriminate.
  - split; reflexivity.
  - destruct s; rewrite Z.compare_refl;
      change (Pos.compare_cont Eq m m) with (Pos.compare m m);
      rewrite Pos.compare_refl; cbn; split; intros; discriminate.
Qed.

Lemma ltb_nan_l (x y : float) :
  PrimFloat.is_nan x = true -> PrimFloat.ltb x y = false.
Proof.
  intros H. apply is_nan_spec in H. rewrite ltb_spec, H. reflexivity.
Qed.

Lemma ltb_nan_r (x y : float) :
  PrimFloat.is_nan y = true -> PrimFloat.ltb x y = false.
Proof.
  intros H. apply is_nan_spec in H. rewrite ltb_spec, H.
  unfold SFltb, SFcompare. destruct (Prim2SF x); reflexivity.
Qed.

Lemma ltb_lex (x y : float) :
  PrimFloat.is_nan x = false -> PrimFloat.is_nan y = false ->
  (PrimFloat.ltb x y = true <-> lex_lt (rank (Prim2SF x)) (rank (Prim2SF y))).
Proof.
  intros Hx Hy. rewrite ltb_spec. apply SFltb_rank.
  - intros E. apply is_nan_spec in E. congruence.
  - intros E. apply is_nan_spec in E. congruence.
Qed.

Lemma ltb_asym (x y : float) :
  PrimFloat.ltb x y = true -> PrimFloat.ltb y x = false.
Proof.
  intros H.
  destruct (PrimFloat.is_nan x) eqn:Hx;
    [ rewrite ltb_nan_l in H by assumption; discriminate | ].
  destruct (PrimFloat.is_nan y) eqn:Hy;
    [ rewrite ltb_nan_r in H by assumption; discriminate | ].
  apply ltb_lex in H; try assumption.
  destruct (PrimFloat.ltb y x) eqn:E; [ | reflexivity ].
  apply ltb_lex in E; try assumption.
  unfold lex_lt in *.
  destruct (rank (Prim2SF x)) as [[? ?] ?], (rank (Prim2SF y)) as [[? ?] ?].
  lia.
Qed.

Lemma not_ltb_trans (x y z : float) :
  PrimFloat.is_nan y = false ->
  PrimFloat.ltb x y = false -> PrimFloat.ltb y z = false ->
  PrimFloat.ltb x z = false.
Proof.
  intros Hy Hxy Hyz.
  destruct (PrimFloat.is_nan x) eqn:Hx; [ apply ltb_nan_l; assumption | ].
  destruct (PrimFloat.is_nan z) eqn:Hz; [ apply ltb_nan_r; assumption | ].
  destruct (PrimFloat.ltb x z) eqn:E; [ | reflexivity ].
  apply ltb_lex in E; try assumption.
  assert (A : ~ lex_lt (rank (Prim2SF x)) (rank (Prim2SF y))).
  { intros C. apply ltb_lex in C; try assumption. congruence. }
  assert (B : ~ lex_lt (rank (Prim2SF y)) (rank (Prim2SF z))).
  { intros C. apply ltb_lex in C; try assumption. congruence. }
  unfold lex_lt in *.
  destruct (rank (Prim2SF x)) as [[? ?] ?], (rank (Prim2SF y)) as [[? ?] ?],
    (rank (Prim2SF z)) as [[? ?] ?].
  lia.
Qed.

Lemma py_int_not_nan (x : float) (z : Z) :
  Float64.py_int x = inr z -> PrimFloat.is_nan x = false.
Proof.
  intros H. destruct (PrimFloat.is_nan x) eqn:E; [ | reflexivity ].
  apply is_nan_spec in E. unfold Float64.py_int in H. rewrite E in H.
  discriminate.
Qed.

(** Truncation follows the order of the values: the mantissa of a binary64
    value has at most 53 bits, and exactly 53 above the least exponent. *)
Lemma digits2_bounds (m : positive) :
  2 ^ (Zpos (digits2_pos m) - 1) <= Zpos m < 2 ^ Zpos (digits2_pos m).
Proof.
  induction m as [ p IH | p IH | ]; cbn [digits2_pos].
  - rewrite Pos2Z.inj_succ, Z.pow_succ_r by lia.
    replace (Z.succ (Zpos (digits2_pos p)) - 1) with (Z.succ (Zpos (digits2_pos p) - 1)) by lia.
    rewrite Z.pow_succ_r by lia. lia.
  - rewrite Pos2Z.inj_succ, Z.pow_succ_r by lia.
    replace (Z.succ (Zpos (digits2_pos p)) - 1) with (Z.succ (Zpos (digits2_pos p) - 1)) by lia.
    rewrite Z.pow_succ_r by lia. lia.
  - cbn. lia.
Qed.

Lemma bounded_mantissa (m : positive) (e : Z) :
  bounded prec emax m e = true ->
  Zpos m < 2 ^ 53 /\ - 1074 <= e /\ (- 1074 < e -> 2 ^ 52 <= Zpos m).
Proof.
  unfold bounded, canonical_mantissa, fexp, emin. intros H.
  apply andb_prop in H as [H _]. apply Z.eqb_eq in H.
  change prec with 53 in H. change emax with 1024 in H.
  pose proof (digits2_bounds m) as [HL HU].
  assert (Hd : Zpos (digits2_pos m) <= 53) by lia.
  split; [ | split ].
  - eapply Z.lt_le_trans; [ exact HU | ]. apply Z.pow_le_mono_r; lia.
  - lia.
  - intros He. assert (Zpos (digits2_pos m) = 53) by lia.
    replace 52 with (Zpos (digits2_pos m) - 1) by lia. exact HL.
Qed.

Lemma shiftl_mono (a b e : Z) : 0 <= a <= b -> Z.shiftl a e <= Z.shiftl b e.
Proof.
  intros H. destruct (Z.le_gt_cases 0 e) as [He | He].
  - rewrite !Z.shiftl_mul_pow2 by assumption.
    apply Z.mul_le_mono_nonneg_r; [ apply Z.pow_nonneg; lia | lia ].
  - rewrite <- (Z.opp_involutive e), <- !Z.shiftr_opp_r.  
    rewrite !Z.shiftr_div_pow2 by lia.
    apply Z.div_le_mono; [ apply Z.pow_pos_nonneg; lia | lia ].
Qed.

Lemma shiftl_nonneg (m : positive) (e : Z) : 0 <= Z.shiftl (Zpos m) e.
Proof. apply Z.shiftl_nonneg. lia. Qed.

Lemma magnitude_order (m1 m2 : positive) (e1 e2 : Z) :
  bounded prec emax m1 e1 = true -> bounded prec emax m2 e2 = true ->
  e2 < e1 \/ (e2 = e1 /\ Zpos m2 <= Zpos m1) ->
  Z.shiftl (Zpos m2) e2 <= Z.shiftl (Zpos m1) e1.
Proof.
  intros H1 H2 [ He | [-> Hm] ].
  - apply bounded_mantissa in H1 as (_ & _ & H1), H2 as (H2 & Hmin & _).
    specialize (H1 ltac:(lia)).
    replace e1 with ((e1 - e2) + e2) by lia.
    rewrite <- Z.shiftl_shiftl by lia.
    apply shiftl_mono. split; [ lia | ].
    rewrite Z.shiftl_mul_pow2 by lia.
    assert (2 ^ 1 <= 2 ^ (e1 - e2)) by (apply Z.pow_le_mono_r; lia).
    change (2 ^ 1) with 2 in *. change (2 ^ 53) with (2 ^ 52 * 2) in H2.
    nia.
  - apply shiftl_mono. lia.
Qed.

Lemma py_int_mono (x y : float) (zx zy : Z) :
  PrimFloat.ltb x y = false ->
  Float64.py_int x = inr zx -> Float64.py_int y = inr zy -> zy <= zx.
Proof.
  intros Hlt Hx Hy.
  pose proof (py_int_not_nan _ _ Hx) as Nx. pose proof (py_int_not_nan _ _ Hy) as Ny.
  assert (HL : ~ lex_lt (rank (Prim2SF x)) (rank (Prim2SF y))).
  { intros C. apply ltb_lex in C; try assumption. congruence. }
  pose proof (Prim2SF_valid x) as Vx. pose proof (Prim2SF_valid y) as Vy.
  unfold Float64.py_int in Hx, Hy.
  destruct (Prim2SF x) as [ sx | sx | | sx mx ex ]; try discriminate;
    destruct (Prim2SF y) as [ sy | sy | | sy my ey ]; try discriminate;
    cbn in Hx, Hy, Vx, Vy, HL; unfold ret in *.
  - injection Hx as <-. injection Hy as <-. lia.
  - injection Hx as <-. injection Hy as <-.
    pose proof (shiftl_nonneg my ey). destruct sy; cbn in HL; lia.
  - injection Hx as <-. injection Hy as <-.
    pose proof (shiftl_nonneg mx ex). destruct sx; cbn in HL; lia.
  - injection Hx as <-. injection Hy as <-.
    pose proof (shiftl_nonneg mx ex). pose proof (shiftl_nonneg my ey).
    destruct sx, sy; cbn in HL; try lia.
    + assert (Z.shiftl (Zpos mx) ex <= Z.shiftl (Zpos my) ey); [ | lia ].
      apply magnitude_order; try assumption. lia.
    + apply magnitude_order; try assumption. lia.
Qed.

(** * Key orders *)

Lemma ascii_compare_refl (a : ascii) : Ascii.compare a a = Eq.
Proof. unfold Ascii.compare. apply N.compare_refl. Qed.

Lemma ascii_compare_trans (a b c : ascii) :
  Ascii.compare a b = Lt -> Ascii.compare b c = Lt -> Ascii.compare a c = Lt.
Proof.
  unfold Ascii.compare. rewrite !N.compare_lt_iff. apply N.lt_trans.
Qed.

Lemma string_compare_refl (s : string) : String.compare s s = Eq.
Proof.
  induction s as [ | a s IH ]; cbn; [ reflexivity | ].
  now rewrite ascii_compare_refl.
Qed.

Lemma string_compare_trans (s1 s2 s3 : string) :
  String.compare s1 s2 = Lt -> String.compare s2 s3 = Lt ->
  String.compare s1 s3 = Lt.
Proof.
  revert s2 s3.
  induction s1 as [ | a s1 IH ]; intros [ | b s2 ] [ | c s3 ]; cbn;
    try congruence.
  destruct (Ascii.compare a b) eqn:Hab; try discriminate;
    destruct (Ascii.compare b c) eqn:Hbc; try discriminate; intros H12 H23.
  - apply Ascii.compare_eq_iff in Hab, Hbc. subst.
    rewrite ascii_compare_refl. eapply IH; eassumption.
  - apply Ascii.compare_eq_iff in Hab. subst. now rewrite Hbc.
  - apply Ascii.compare_eq_iff in Hbc. subst. now rewrite Hab.
  - now rewrite (ascii_compare_trans _ _ _ Hab Hbc).
Qed.

#[export] Instance string_order : KeyOrder String.compare.
Proof.
  split.
  - apply String.compare_eq_iff.
  - apply string_compare_refl.
  - intros a b. apply String.compare_antisym.
  - apply string_compare_trans.
Qed.

#[export] Instance song_order : KeyOrder song_cmp.
Proof.
  split; unfold song_cmp.
  - intros [a1 a2] [b1 b2]; cbn.
    destruct (String.compare a1 b1) eqn:E1; try discriminate.
    intros E2. apply String.compare_eq_iff in E1, E2. congruence.
  - intros [a1 a2]; cbn. now rewrite !string_compare_refl.
  - intros [a1 a2] [b1 b2]; cbn.
    rewrite (String.compare_antisym b1 a1), (String.compare_antisym b2 a2).
    destruct (String.compare a1 b1); reflexivity.
  - intros [a1 a2] [b1 b2] [c1 c2]; cbn.
    destruct (String.compare a1 b1) eqn:E1; try discriminate;
      destruct (String.compare b1 c1) eqn:E2; try discriminate; intros H1 H2.
    + apply String.compare_eq_iff in E1, E2. subst.
      rewrite string_compare_refl. eapply string_compare_trans; eassumption.
    + apply String.compare_eq_iff in E1. subst. now rewrite E2.
    + apply String.compare_eq_iff in E2. subst. now rewrite E1.
    + now rewrite (string_compare_trans _ _ _ E1 E2).
Qed.

(** * Facts about lists *)

Lemma filter_split_perm {A : Type} (f : A -> bool) (l : list A) :
  Permutation (filter (fun x => negb (f x)) l ++ filter f l) l.
Proof.
  induction l as [ | x l IH ]; cbn; [ constructor | ].
  destruct (f x); cbn.
  - symmetry. apply Permutation_cons_app. now symmetry.
  - now constructor.
Qed.

Lemma mapM_length {A B : Type} (f : A -> result B) (l : list A) (r : list B) :
  mapM f l = inr r -> List.length r = List.length l.
Proof.
  revert r. induction l as [ | a l IH ]; cbn; intros r H.
  - injection H as <-. reflexivity.
  - destruct (f a) as [ e | b ]; cbn in H; [ discriminate | ].
    destruct (mapM f l) as [ e | bs ]; cbn in H; [ discriminate | ].
    injection H as <-. cbn. f_equal. now apply IH.
Qed.

Lemma mapM_Forall2 {A B : Type} (f : A -> result B) (l : list A) (r : list B) :
  mapM f l = inr r <-> Forall2 (fun a b => f a = inr b) l r.
Proof.
  revert r. induction l as [ | a l IH ]; cbn; intros r.
  - split.
    + intros H. injection H as <-. constructor.
    + intros H. inversion H. reflexivity.
  - split.
    + intros H. destruct (f a) as [ e | b ] eqn:Ea; cbn in H; [ discriminate | ].
      destruct (mapM f l) as [ e | bs ] eqn:El; cbn in H; [ discriminate | ].
      injection H as <-. constructor; [ assumption | ]. now apply IH.
    + intros H. inversion H as [ | a' b l' bs Ha Hl ]; subst.
      rewrite Ha. cbn. apply IH in Hl. rewrite Hl. reflexivity.
Qed.

(** * Facts about [groupby] *)

Section GroupByFacts.
Context {K : Type} (cmp : K -> K -> comparison) `{!KeyOrder cmp}.
Variable key : Pandas.Row -> option K.

Local Abbreviation state := (float * float)%type.

Local Abbreviation step :=
  (fun acc r =>
     match key r with
     | Some k => Pandas.add_to_group cmp k (Pandas.minutes r) acc
     | None => acc
     end).

Lemma cmp_gt_lt (a b : K) : cmp a b = Gt -> cmp b a = Lt.
Proof. intros H. rewrite (cmp_antisym a b), H. reflexivity. Qed.

Lemma add_to_group_keys (k k0 : K) (v : option float) (acc : list (K * state)) :
  In k (map fst (Pandas.add_to_group cmp k0 v acc))
  <-> k = k0 \/ In k (map fst acc).
Proof.
  induction acc as [ | [k' s] rest IH ]; cbn.
  - intuition.
  - destruct (cmp k0 k') eqn:E; cbn.
    + apply cmp_eq in E. subst. intuition.
    + intuition.
    + rewrite IH. intuition.
Qed.

Lemma add_to_group_sorted (k0 : K) (v : option float) (acc : list (K * state)) :
  key_sorted cmp acc -> key_sorted cmp (Pandas.add_to_group cmp k0 v acc).
Proof.
  unfold key_sorted.
  induction acc as [ | [k' s] rest IH ]; cbn; intros HS.
  - repeat constructor.
  - apply StronglySorted_inv in HS as [HS HF].
    destruct (cmp k0 k') eqn:E; cbn.
    + now constructor.
    + constructor; [ now constructor | ].
      constructor; [ assumption | ].
      rewrite Forall_forall in *. intros x Hx.
      eapply cmp_trans; [ eassumption | now apply HF ].
    + constructor; [ now apply IH | ].
      rewrite Forall_forall in *. intros x Hx.
      apply add_to_group_keys in Hx as [-> | Hx].
      * now apply cmp_gt_lt.
      * now apply HF.
Qed.

Lemma group_states_sorted_from (rs : list Pandas.Row) (acc : list (K * state)) :
  key_sorted cmp acc -> key_sorted cmp (fold_left step rs acc).
Proof.
  revert acc. induction rs as [ | r rs IH ]; cbn; intros acc HS.
  - assumption.
  - apply IH. destruct (key r); [ now apply add_to_group_sorted | assumption ].
Qed.

Lemma group_states_sorted (rs : list Pandas.Row) :
  key_sorted cmp (Pandas.group_states cmp key rs).
Proof. apply group_states_sorted_from. constructor. Qed.

Lemma groupby_keys_states (rs : list Pandas.Row) :
  map fst (Pandas.groupby_sum cmp key rs)
  = map fst (Pandas.group_states cmp key rs).
Proof. unfold Pandas.groupby_sum. rewrite map_map. reflexivity. Qed.

Lemma groupby_sorted (rs : list Pandas.Row) :
  key_sorted cmp (Pandas.groupby_sum cmp key rs).
Proof.
  unfold key_sorted. rewrite groupby_keys_states. apply group_states_sorted.
Qed.

Lemma key_sorted_NoDup {V : Type} (l : list (K * V)) :
  key_sorted cmp l -> NoDup (map fst l).
Proof.
  unfold key_sorted. induction (map fst l) as [ | k ks IH ]; intros HS.
  - constructor.
  - apply StronglySorted_inv in HS as [HS HF]. constructor; [ | now apply IH ].
    intros Hin. rewrite Forall_forall in HF. specialize (HF _ Hin).
    rewrite cmp_refl in HF. discriminate.
Qed.

Lemma lookup_below {V : Type} (k : K) (l : list (K * V)) :
  Forall (fun k' => cmp k k' = Lt) (map fst l) -> lookup cmp k l = None.
Proof.
  induction l as [ | [k' s] t IH ]; cbn; intros HF.
  - reflexivity.
  - inversion HF as [ | ? ? H1 H2 ]; subst. rewrite H1. now apply IH.
Qed.

Lemma lookup_In {V : Type} (k : K) (s : V) (l : list (K * V)) :
  key_sorted cmp l -> (In (k, s) l <-> lookup cmp k l = Some s).
Proof.
  unfold key_sorted. induction l as [ | [k' s'] t IH ]; cbn; intros HS.
  - split; [ contradiction | discriminate ].
  - apply StronglySorted_inv in HS as [HS HF]. split.
    + intros [ E | Hin ].
      * injection E as -> ->. now rewrite cmp_refl.
      * rewrite Forall_forall in HF.
        assert (HL : cmp k' k = Lt).
        { apply HF. change k with (fst (k, s)). now apply in_map. }
        rewrite (cmp_antisym k' k), HL. cbn. now apply IH.
    + destruct (cmp k k') eqn:E.
      * apply cmp_eq in E. subst. intros H. injection H as ->. now left.
      * intros H. right. now apply IH.
      * intros H. right. now apply IH.
Qed.

Lemma lookup_add_to_group (k k0 : K) (v : option float) (acc : list (K * state)) :
  key_sorted cmp acc ->
  lookup cmp k (Pandas.add_to_group cmp k0 v acc)
  = match cmp k k0 with
    | Eq =>
        Some (Pandas.accumulate
                (match lookup cmp k0 acc with
                 | Some s => s
                 | None => (0%float, 0%float)
                 end) v)
    | _ => lookup cmp k acc
    end.
Proof.
  unfold key_sorted. induction acc as [ | [k' s] rest IH ]; cbn; intros HS.
  - destruct (cmp k k0); reflexivity.
  - apply StronglySorted_inv in HS as [HS HF].
    destruct (cmp k0 k') eqn:E0; cbn.
    + apply cmp_eq in E0. subst k'.
      destruct (cmp k k0) eqn:E; reflexivity.
    + destruct (cmp k k0) eqn:E; try reflexivity.
      rewrite lookup_below; [ reflexivity | ].
      rewrite Forall_forall in *. intros x Hx.
      eapply cmp_trans; [ eassumption | now apply HF ].
    + destruct (cmp k k') eqn:E1.
      * apply cmp_eq in E1. subst k'.
        rewrite (cmp_antisym k0 k), E0. reflexivity.
      * rewrite (IH HS). destruct (cmp k k0); reflexivity.
      * rewrite (IH HS). destruct (cmp k k0); reflexivity.
Qed.

Lemma lookup_group_states_from (k : K) (rs : list Pandas.Row) (acc : list (K * state)) :
  key_sorted cmp acc ->
  lookup cmp k (fold_left step rs acc)
  = match rows_of_key cmp key k rs with
    | [] => lookup cmp k acc
    | m =>
        Some (fold_left Pandas.accumulate (map Pandas.minutes m)
                (match lookup cmp k acc with
                 | Some s => s
                 | None => (0%float, 0%float)
                 end))
    end.
Proof.
  revert acc. induction rs as [ | r rs IH ]; intros acc HS.
  - reflexivity.
  - cbn [fold_left rows_of_key filter]. fold (rows_of_key cmp key k rs).
    destruct (key r) as [ kr | ] eqn:Ek.
    + rewrite IH by now apply add_to_group_sorted.
      rewrite lookup_add_to_group by assumption.
      destruct (cmp k kr) eqn:E.
      * apply cmp_eq in E. subst kr.
        destruct (rows_of_key cmp key k rs); reflexivity.
      * reflexivity.
      * reflexivity.
    + now apply IH.
Qed.

(** A key is in the table exactly when some row carries it, and the table
    holds for it what pandas makes of the minutes of those rows. *)
Lemma groupby_In (k : K) (s : float) (rs : list Pandas.Row) :
  In (k, s) (Pandas.groupby_sum cmp key rs)
  <-> rows_of_key cmp key k rs <> []
      /\ s = sum_of_rows (rows_of_key cmp key k rs).
Proof.
  assert (G : forall st, In (k, st) (Pandas.group_states cmp key rs)
                <-> rows_of_key cmp key k rs <> []
                    /\ st = fold_left Pandas.accumulate
                              (map Pandas.minutes (rows_of_key cmp key k rs))
                              (0%float, 0%float)).
  { intros st. rewrite lookup_In by apply group_states_sorted.
    unfold Pandas.group_states. rewrite lookup_group_states_from by constructor.
    cbn [lookup].
    destruct (rows_of_key cmp key k rs) as [ | r m ].
    - split; [ discriminate | intros [H _]; now contradiction H ].
    - split.
      + intros H. injection H as <-. split; [ discriminate | reflexivity ].
      + intros [_ ->]. reflexivity. }
  unfold Pandas.groupby_sum, sum_of_rows. rewrite in_map_iff. split.
  - intros ([k' st] & E & Hin). cbn in E. injection E as -> <-.
    apply G in Hin as [H1 ->]. now split.
  - intros [H1 ->].
    exists (k, fold_left Pandas.accumulate
                 (map Pandas.minutes (rows_of_key cmp key k rs))
                 (0%float, 0%float)).
    split; [ reflexivity | ]. apply G. now split.
Qed.

Lemma rows_of_key_nonempty (k : K) (rs : list Pandas.Row) :
  rows_of_key cmp key k rs <> [] <-> exists r, In r rs /\ key r = Some k.
Proof.
  unfold rows_of_key. split.
  - intros H. destruct (filter _ rs) as [ | r m ] eqn:E; [ now contradiction H | ].
    assert (Hin : In r (filter
      (fun r => match key r with
                | Some k' => match cmp k k' with Eq => true | _ => false end
                | None => false
                end) rs)) by (rewrite E; now left).
    apply filter_In in Hin as [Hin Hk]. exists r. split; [ assumption | ].
    destruct (key r) as [ k' | ]; [ | discriminate ].
    destruct (cmp k k') eqn:Ec; try discriminate.
    apply cmp_eq in Ec. now subst.
  - intros (r & Hin & Hk) E.
    assert (Hf : In r (filter
      (fun r => match key r with
                | Some k' => match cmp k k' with Eq => true | _ => false end
                | None => false
                end) rs)).
    { apply filter_In. split; [ assumption | ]. rewrite Hk, cmp_refl. reflexivity. }
    rewrite E in Hf. contradiction.
Qed.

Lemma groupby_keys (k : K) (rs : list Pandas.Row) :
  In k (map fst (Pandas.groupby_sum cmp key rs))
  <-> exists r, In r rs /\ key r = Some k.
Proof.
  rewrite <- rows_of_key_nonempty. split.
  - intros H. apply in_map_iff in H as ([k' s] & E & Hin). cbn in E. subst k'.
    now apply groupby_In in Hin as [H _].
  - intros H. apply in_map_iff.
    exists (k, sum_of_rows (rows_of_key cmp key k rs)). split; [ reflexivity | ].
    apply groupby_In. now split.
Qed.
End GroupByFacts.

(** What pandas makes of the minutes of some rows is their Kahan sum, the
    NaN cells left out. *)
Lemma accumulate_kahan (cells : list (option float)) (st : float * float) :
  fst (fold_left Pandas.accumulate cells st)
  = kahan_from (fst st) (snd st)
      (flat_map (fun c => match c with Some x => [x] | None => [] end) cells).
Proof.
  revert st. induction cells as [ | [ x | ] cells IH ]; intros [s c].
  - reflexivity.
  - cbn [fold_left flat_map app kahan_from Pandas.accumulate]. rewrite IH.
    reflexivity.
  - cbn [fold_left flat_map app Pandas.accumulate]. apply IH.
Qed.

Lemma accumulate_zeros (cells : list (option float)) :
  Forall (fun c => c = None \/ c = Some 0%float) cells ->
  fold_left Pandas.accumulate cells (0%float, 0%float) = (0%float, 0%float).
Proof.
  induction 1 as [ | c cells [ -> | -> ] _ IH ]; cbn; [ reflexivity | exact IH | exact IH ].
Qed.

(** * Facts about sorting *)

Section InsertionFacts.
Context {K : Type}.
Implicit Types (g h : K * float) (l : list (K * float)).

Lemma insert_desc_perm g l : Permutation (Pandas.insert_desc g l) (g :: l).
Proof.
  induction l as [ | h t IH ]; cbn.
  - reflexivity.
  - destruct (PrimFloat.ltb (snd g) (snd h)).
    + rewrite IH. apply perm_swap.
    + reflexivity.
Qed.

Lemma descending_perm l : Permutation (Pandas.descending l) l.
Proof.
  induction l as [ | g l IH ]; cbn.
  - constructor.
  - rewrite insert_desc_perm. now constructor.
Qed.

Lemma insert_desc_sorted g l :
  PrimFloat.is_nan (snd g) = false ->
  Forall (fun h => PrimFloat.is_nan (snd h) = false) l ->
  StronglySorted not_below l ->
  StronglySorted not_below (Pandas.insert_desc g l).
Proof.
  intros Hg. induction l as [ | h t IH ]; cbn; intros HN HS.
  - repeat constructor.
  - apply StronglySorted_inv in HS as [HS HF].
    inversion HN as [ | ? ? Hh Ht ]; subst.
    destruct (PrimFloat.ltb (snd g) (snd h)) eqn:E.
    + constructor; [ now apply IH | ].
      rewrite Forall_forall in *. intros x Hx.
      apply (Permutation_in _ (insert_desc_perm g t)) in Hx as [ <- | Hx ].
      * now apply ltb_asym.
      * now apply HF.
    + constructor; [ now constructor | ].
      constructor; [ exact E | ].
      rewrite Forall_forall in *. intros x Hx.
      unfold not_below in *. eapply not_ltb_trans; [ exact Hh | exact E | now apply HF ].
Qed.

Lemma descending_sorted l :
  Forall (fun h => PrimFloat.is_nan (snd h) = false) l ->
  StronglySorted not_below (Pandas.descending l).
Proof.
  induction l as [ | g l IH ]; cbn; intros HN.
  - constructor.
  - inversion HN; subst. apply insert_desc_sorted; try assumption.
    + rewrite Forall_forall in *. intros x Hx.
      apply (Permutation_in _ (descending_perm l)) in Hx. auto.
    + now apply IH.
Qed.
End InsertionFacts.

(** Insertion keeps the promise of the sort. *)
Definition insertion : Pandas.Quicksort :=
  {| Pandas.sort_desc := @Pandas.descending;
     Pandas.sort_desc_perm := @descending_perm;
     Pandas.sort_desc_sorted := @descending_sorted |}.

Lemma ltb_irrefl (x : float) : PrimFloat.ltb x x = false.
Proof.
  destruct (PrimFloat.ltb x x) eqn:E; [ | reflexivity ].
  pose proof (ltb_asym _ _ E). congruence.
Qed.

Lemma StronglySorted_firstn {A : Type} (R : A -> A -> Prop) (n : nat) (l : list A) :
  StronglySorted R l -> StronglySorted R (firstn n l).
Proof.
  intros HS. revert n. induction HS as [ | x l HS IH HF ]; intros [ | n ]; cbn;
    try constructor.
  - apply IH.
  - rewrite Forall_forall in *. intros y Hy. apply HF.
    rewrite <- (firstn_skipn n l). apply in_or_app. now left.
Qed.

Lemma StronglySorted_app_inv {A : Type} (R : A -> A -> Prop) (l r : list A) (a b : A) :
  StronglySorted R (l ++ r) -> In a l -> In b r -> R a b.
Proof.
  induction l as [ | x l IH ]; cbn; intros HS Ha Hb; [ contradiction | ].
  apply StronglySorted_inv in HS as [HS HF]. destruct Ha as [ -> | Ha ].
  - rewrite Forall_forall in HF. apply HF. apply in_or_app. now right.
  - now apply IH.
Qed.

Section SortFacts.
Context (qs : Pandas.Quicksort) {K : Type}.
Implicit Types (g h : K * float) (l : list (K * float)).

Lemma sort_values_perm l : Permutation (Pandas.sort_values qs l) l.
Proof.
  unfold Pandas.sort_values. rewrite Pandas.sort_desc_perm.
  apply (filter_split_perm (fun g => PrimFloat.is_nan (snd g))).
Qed.

Lemma sorted_app l r :
  StronglySorted not_below l ->
  Forall (fun h => PrimFloat.is_nan (snd h) = true) r ->
  StronglySorted not_below (l ++ r).
Proof.
  intros HS HN. induction HS as [ | g l HS IH HF ]; cbn.
  - induction HN as [ | h r Hh HN IH ]; constructor; [ assumption | ].
    rewrite Forall_forall in *. intros x Hx. apply ltb_nan_r. auto.
  - constructor; [ assumption | ].
    apply Forall_app. split; [ assumption | ].
    rewrite Forall_forall in *. intros x Hx. apply ltb_nan_r. auto.
Qed.

(** The outcome is in descending order of sums. *)
Lemma sort_values_sorted l : StronglySorted not_below (Pandas.sort_values qs l).
Proof.
  unfold Pandas.sort_values. apply sorted_app.
  - apply Pandas.sort_desc_sorted. rewrite Forall_forall. intros x Hx.
    apply filter_In in Hx as [_ Hx]. now apply negb_true_iff in Hx.
  - rewrite Forall_forall. intros x Hx. now apply filter_In in Hx as [_ Hx].
Qed.

Lemma sort_values_nil l : Pandas.sort_values qs l = [] <-> l = [].
Proof.
  split.
  - intros H. apply Permutation_nil. rewrite <- H. apply sort_values_perm.
  - intros ->. apply Permutation_nil. symmetry. apply sort_values_perm.
Qed.

(** The first group of the sorted table is a group of the table, and no
    group of the table has a larger sum. *)
Lemma sort_values_first g l (rest : list (K * float)) :
  Pandas.sort_values qs l = g :: rest ->
  In g l /\ forall h, In h l -> not_below g h.
Proof.
  intros E. split.
  - apply (Permutation_in _ (sort_values_perm l)). rewrite E. now left.
  - intros h Hh.
    apply (Permutation_in _ (Permutation_sym (sort_values_perm l))) in Hh.
    pose proof (sort_values_sorted l) as HS. rewrite E in Hh, HS.
    destruct Hh as [ <- | Hh ]; [ apply ltb_irrefl | ].
    apply StronglySorted_inv in HS as [_ HF]. rewrite Forall_forall in HF.
    now apply HF.
Qed.

(** A table that is in strictly descending order of sums already is left
    as it is: no other order of its groups is descending. *)
Lemma sorted_strict_unique l l' :
  StronglySorted (fun g h => PrimFloat.ltb (snd h) (snd g) = true) l ->
  Permutation l' l -> StronglySorted not_below l' -> l' = l.
Proof.
  intros HS. revert l'. induction HS as [ | a t HS IH HF ]; intros l' HP HS'.
  - apply Permutation_nil. now symmetry.
  - destruct l' as [ | h t' ].
    + apply Permutation_nil in HP. discriminate.
    + assert (E : h = a).
      { assert (Hh : In h (a :: t)) by (apply (Permutation_in _ HP); now left).
        destruct Hh as [ E | Hh ]; [ now symmetry | ]. exfalso.
        assert (Ha : In a (h :: t')).
        { apply (Permutation_in _ (Permutation_sym HP)). now left. }
        rewrite Forall_forall in HF. pose proof (HF _ Hh) as Hlt.
        destruct Ha as [ -> | Ha ].
        - rewrite ltb_irrefl in Hlt. discriminate.
        - apply StronglySorted_inv in HS' as [_ HF']. rewrite Forall_forall in HF'.
          specialize (HF' _ Ha). unfold not_below in HF'. congruence. }
      subst h. f_equal. apply IH.
      * now apply Permutation_cons_inv in HP.
      * now apply StronglySorted_inv in HS'.
Qed.

Lemma sort_values_strict l :
  StronglySorted (fun g h => PrimFloat.ltb (snd h) (snd g) = true) l ->
  Pandas.sort_values qs l = l.
Proof.
  intros HS. apply sorted_strict_unique; [ exact HS | | ].
  - apply sort_values_perm.
  - apply sort_values_sorted.
Qed.
End SortFacts.

(** * Facts about numpy's sum *)

Lemma block_sum_short (l : list float) :
  (List.length l < 8)%nat ->
  Pandas.block_sum l = fold_left PrimFloat.add l neg_zero.
Proof.
  intros H. do 8 (destruct l as [ | ? l ]; [ reflexivity | ]).
  cbn in H. lia.
Qed.

Lemma pairwise_sum_block (fuel : nat) (l : list float) :
  (List.length l <= 128)%nat ->
  Pandas.pairwise_sum fuel l = Pandas.block_sum l.
Proof.
  intros H. destruct fuel as [ | fuel ]; [ reflexivity | ]. cbn [Pandas.pairwise_sum].
  destruct (Nat.ltb_spec 128 (List.length l)); [ lia | reflexivity ].
Qed.

Lemma np_sum_short (l : list float) :
  (List.length l < 8)%nat ->
  Pandas.np_sum l = fold_left PrimFloat.add l neg_zero.
Proof.
  intros H. unfold Pandas.np_sum.
  rewrite pairwise_sum_block by lia. now apply block_sum_short.
Qed.

(** The halves of a long array are shorter than the array. *)
Lemma split_point (n : nat) :
  (128 < n)%nat ->
  (0 < n / 2 - (n / 2) mod 8 < n)%nat.
Proof.
  intros H.
  pose proof (Nat.div_mod_eq n 2) as E1.
  pose proof (Nat.mod_upper_bound n 2 ltac:(lia)) as B1.
  pose proof (Nat.mod_upper_bound (n / 2) 8 ltac:(lia)) as B2.
  lia.
Qed.

(** The length of the array is fuel enough: more changes nothing. *)
Lemma pairwise_sum_fuel (f1 f2 : nat) (l : list float) :
  (List.length l <= f1)%nat -> (List.length l <= f2)%nat ->
  Pandas.pairwise_sum f1 l = Pandas.pairwise_sum f2 l.
Proof.
  revert f2 l. induction f1 as [ | f1 IH ]; intros f2 l H1 H2.
  - rewrite !pairwise_sum_block by lia. reflexivity.
  - destruct f2 as [ | f2 ]; [ rewrite !pairwise_sum_block by lia; reflexivity | ].
    cbn [Pandas.pairwise_sum].
    destruct (Nat.ltb_spec 128 (List.length l)) as [ Hn | Hn ]; [ | reflexivity ].
    pose proof (split_point _ Hn) as Hs.
    f_equal; apply IH; rewrite ?length_firstn, ?length_skipn; lia.
Qed.

(** A property that 0 has and sums keep holds of the sum of an array
    whose numbers have it. *)
Section SumInd.
Variable P : float -> Prop.
Hypothesis P_start : P neg_zero.
Hypothesis P_add : forall x y, P x -> P y -> P (PrimFloat.add x y).

Lemma fold_add_ind (l : list float) (acc : float) :
  P acc -> Forall P l -> P (fold_left PrimFloat.add l acc).
Proof.
  revert acc. induction l as [ | x l IH ]; cbn; intros acc Ha HF.
  - exact Ha.
  - inversion HF; subst. apply IH; [ now apply P_add | assumption ].
Qed.

Lemma unrolled_ind (n : nat) (l : list float) (r : Pandas.lanes) :
  (List.length l <= n)%nat ->
  lanes_all P r -> Forall P l ->
  lanes_all P (fst (Pandas.unrolled r l)) /\ Forall P (snd (Pandas.unrolled r l)).
Proof.
  revert l r. induction n as [ | n IH ]; intros l r Hn Hr HF.
  - destruct l; [ now split | cbn in Hn; lia ].
  - do 8 (destruct l as [ | ? l ]; [ now split | ]).
    cbn [Pandas.unrolled]. destruct Hr as (H0 & H1 & H2 & H3 & H4 & H5 & H6 & H7).
    repeat match goal with
           | H : Forall P (_ :: _) |- _ => inversion H; subst; clear H
           end.
    apply IH; [ cbn in Hn; lia | | assumption ].
    repeat split; cbn; now apply P_add.
Qed.

Lemma block_sum_ind (l : list float) : Forall P l -> P (Pandas.block_sum l).
Proof.
  intros HF.
  do 8 (destruct l as [ | ? l ];
        [ apply fold_add_ind; [ exact P_start | exact HF ] | ]).
  unfold Pandas.block_sum.
  repeat match goal with
         | H : Forall P (_ :: _) |- _ => inversion H; subst; clear H
         end.
  match goal with
  | |- context [Pandas.unrolled ?r l] =>
      destruct (unrolled_ind (List.length l) l r) as [Hr Hrest];
        [ lia | repeat split; assumption | assumption | ];
        destruct (Pandas.unrolled r l) as [r' rest]
  end.
  cbn [fst snd] in Hr, Hrest.
  destruct Hr as (H0 & H1' & H2' & H3' & H4' & H5' & H6' & H7').
  apply fold_add_ind; [ | exact Hrest ].
  repeat apply P_add; assumption.
Qed.

Lemma pairwise_sum_ind (fuel : nat) (l : list float) :
  Forall P l -> P (Pandas.pairwise_sum fuel l).
Proof.
  revert l. induction fuel as [ | fuel IH ]; intros l HF.
  - now apply block_sum_ind.
  - cbn [Pandas.pairwise_sum]. destruct (128 <? List.length l)%nat.
    + apply P_add; apply IH.
      * rewrite <- (firstn_skipn (List.length l / 2 - (List.length l / 2) mod 8)%nat l) in HF.
        now apply Forall_app in HF as [HF _].
      * rewrite <- (firstn_skipn (List.length l / 2 - (List.length l / 2) mod 8)%nat l) in HF.
        now apply Forall_app in HF as [_ HF].
    + now apply block_sum_ind.
Qed.
End SumInd.

(** The sum of zeros is a zero. *)
Lemma nansum_zero (cells : list (option float)) :
  Forall (fun c => c = None \/ c = Some 0%float) cells ->
  Float64.py_int (Pandas.nansum cells) = inr 0.
Proof.
  intros H.
  assert (Z0 : Pandas.nansum cells = 0%float \/ Pandas.nansum cells = neg_zero).
  { unfold Pandas.nansum, Pandas.np_sum.
    apply (pairwise_sum_ind (fun x => x = 0%float \/ x = neg_zero)).
    - now right.
    - intros x y [ -> | -> ] [ -> | -> ]; cbn; auto.
    - rewrite Forall_forall in *. intros x Hx.
      apply in_map_iff in Hx as (c & <- & Hc).
      destruct (H c Hc) as [ -> | -> ]; now left. }
  destruct Z0 as [ -> | -> ]; reflexivity.
Qed.

(** * Facts about the constructor *)

Import Pandas SpotifyHistory.

Lemma existsb_false_In {A : Type} (p : A -> bool) (l : list A) (a : A) :
  existsb p l = false -> In a l -> p a = false.
Proof.
  intros H Hin. destruct (p a) eqn:E; [ | reflexivity ].
  assert (existsb p l = true) by (apply existsb_exists; eauto). congruence.
Qed.

Lemma absent_cell {A : Type} (f : field A) : present f = false -> cell f = None.
Proof. destruct f; cbn; intros H; try discriminate; reflexivity. Qed.

Lemma absent_text (f : field Name) : present f = false -> text_of f = None.
Proof. intros H. unfold text_of. now rewrite absent_cell. Qed.

Lemma mapM_map {A B C : Type} (g : A -> B) (f : B -> result C) (l : list A) :
  mapM f (map g l) = mapM (fun a => f (g a)) l.
Proof.
  induction l as [ | a l IH ]; cbn; [ reflexivity | ]. now rewrite IH.
Qed.

(** Cutting the frame of the records down to the expected columns it has
    changes nothing: the frame holds no other column. *)
Lemma select_frame_of_records (evs : list Event) :
  select (filter (fun c => has_column c (frame_of_records evs)) cols)
    (frame_of_records evs)
  = frame_of_records evs.
Proof.
  unfold select, has_column, frame_of_records. cbn [columns rows].
  destruct (existsb (fun e => present (ev_trackName e)) evs) eqn:ET;
    destruct (existsb (fun e => present (ev_artistName e)) evs) eqn:EA;
    destruct (existsb (fun e => present (ev_msPlayed e)) evs) eqn:EM;
    cbn; f_equal; rewrite map_map;
    apply map_ext_in; intros e He; unfold keep, row_of_record; cbn;
    repeat match goal with
      | H : existsb (fun e => present (ev_msPlayed e)) evs = false |- _ =>
          rewrite (absent_cell (ev_msPlayed e) (existsb_false_In _ _ _ H He)); clear H
      | H : existsb (fun e => present (?f e)) evs = false |- _ =>
          rewrite (absent_text (f e) (existsb_false_In _ _ _ H He)); clear H
      end;
    reflexivity.
Qed.

Lemma has_msPlayed_frame (evs : list Event) :
  has_column "msPlayed" (frame_of_records evs) = has_msPlayed evs.
Proof.
  unfold has_column, frame_of_records, has_msPlayed. cbn [columns].
  destruct (existsb (fun e => present (ev_trackName e)) evs);
    destruct (existsb (fun e => present (ev_artistName e)) evs);
    destruct (existsb (fun e => present (ev_msPlayed e)) evs); reflexivity.
Qed.

(** The constructor, record by record. *)
Lemma of_records_unfold (evs : list Event) :
  of_records evs
  = if has_msPlayed evs then
      rs <- mapM
              (fun e => x <- astype_float (cell (ev_msPlayed e)) ;;
                        ret (set_minutes (div_cell x 60000%float) (row_of_record e)))
              evs ;;
      ret {| columns := columns (frame_of_records evs) ++ ["minutes"]; rows := rs |}
    else
      ret {| columns := columns (frame_of_records evs) ++ ["minutes"];
             rows := map (fun e => set_minutes (Some 0%float) (row_of_record e)) evs |}.
Proof.
  unfold of_records, prepare. rewrite select_frame_of_records, has_msPlayed_frame.
  destruct (has_msPlayed evs).
  - cbn [rows frame_of_records]. rewrite mapM_map. reflexivity.
  - cbn [rows frame_of_records]. rewrite map_map. reflexivity.
Qed.

Lemma Forall2_eq_map {A B : Type} (f : A -> B) (l : list A) (l' : list B) :
  Forall2 (fun a b => b = f a) l l' -> l' = map f l.
Proof. induction 1; cbn; congruence. Qed.

Lemma no_msPlayed_no_duration (evs : list Event) (e : Event) :
  has_msPlayed evs = false -> In e evs -> duration e = None.
Proof.
  intros H He. unfold duration, duration_of.
  rewrite (absent_cell _ (existsb_false_In _ _ _ H He)). reflexivity.
Qed.

(** The frame of an export that the constructor accepts: the columns of
    the keys that occur and [minutes], and one row for each record. *)
Lemma of_records_map (evs : list Event) (df : DataFrame) :
  of_records evs = inr df ->
  columns df = columns (frame_of_records evs) ++ ["minutes"]
  /\ rows df = map (row_of (has_msPlayed evs)) evs.
Proof.
  rewrite of_records_unfold. destruct (has_msPlayed evs) eqn:EM.
  - destruct (mapM _ evs) as [ err | rs ] eqn:E; cbn; [ discriminate | ].
    intros H. injection H as <-. cbn. split; [ reflexivity | ].
    apply mapM_Forall2 in E. apply Forall2_eq_map.
    eapply Forall2_impl; [ | exact E ]. cbv beta. intros e r Hr.
    unfold row_of, duration, duration_of.
    destruct (astype_float (cell (ev_msPlayed e))) as [ err | x ];
      cbn in Hr; [ discriminate | ].
    injection Hr as <-. destruct x; reflexivity.
  - intros H. injection H as <-. cbn. split; reflexivity.
Qed.

Lemma of_records_length (evs : list Event) (df : DataFrame) :
  of_records evs = inr df -> List.length (rows df) = List.length evs.
Proof.
  intros H. apply of_records_map in H as [_ ->]. apply length_map.
Qed.

Lemma fillna_row_of (evs : list Event) (e : Event) :
  In e evs -> fillna (minutes (row_of (has_msPlayed evs) e)) = played_minutes e.
Proof.
  intros He. unfold played_minutes. cbn. destruct (has_msPlayed evs) eqn:EM.
  - reflexivity.
  - now rewrite (no_msPlayed_no_duration evs e EM He).
Qed.

(** The total is numpy's sum of the minutes of the records. *)
Lemma total_minutes_played (evs : list Event) (df : DataFrame) :
  of_records evs = inr df ->
  total_minutes df = Float64.py_int (np_sum (map played_minutes evs)).
Proof.
  intros H. apply of_records_map in H as [_ HR].
  unfold total_minutes, nansum. rewrite HR, !map_map. f_equal. f_equal.
  apply map_ext_in. intros e He. now apply fillna_row_of.
Qed.

(** The shape of the frame the constructor builds. *)
Lemma of_records_shape (evs : list Event) (df : DataFrame) :
  of_records evs = inr df ->
  empty df = match evs with [] => true | _ => false end
  /\ has_column "trackName" df = existsb (fun e => present (ev_trackName e)) evs
  /\ has_column "artistName" df = existsb (fun e => present (ev_artistName e)) evs.
Proof.
  intros H. pose proof (of_records_length _ _ H) as HL.
  apply of_records_map in H as [Hc _]. split; [ | split ].
  - unfold empty. rewrite Hc, length_app. cbn. rewrite Nat.add_comm. cbn.
    destruct evs, (rows df); cbn in *; try discriminate; reflexivity.
  - unfold has_column. rewrite Hc. unfold frame_of_records. cbn [columns].
    destruct (existsb (fun e => present (ev_trackName e)) evs);
      destruct (existsb (fun e => present (ev_artistName e)) evs);
      destruct (existsb (fun e => present (ev_msPlayed e)) evs); reflexivity.
  - unfold has_column. rewrite Hc. unfold frame_of_records. cbn [columns].
    destruct (existsb (fun e => present (ev_trackName e)) evs);
      destruct (existsb (fun e => present (ev_artistName e)) evs);
      destruct (existsb (fun e => present (ev_msPlayed e)) evs); reflexivity.
Qed.

(** * The groups, in terms of the export *)

Lemma song_key_row_of (hm : bool) (e : Event) : song_key (row_of hm e) = song_of e.
Proof. reflexivity. Qed.

Lemma artist_key_row_of (hm : bool) (e : Event) :
  artist_key (row_of hm e) = artist_of e.
Proof. reflexivity. Qed.

Lemma song_cmp_eqb (k k' : string * string) :
  match song_cmp k k' with Eq => true | _ => false end
  = ((fst k =? fst k')%string && (snd k =? snd k')%string).
Proof.
  unfold song_cmp.
  destruct (String.eqb_spec (fst k) (fst k')) as [ E1 | N1 ].
  - rewrite E1, string_compare_refl. cbn.
    destruct (String.eqb_spec (snd k) (snd k')) as [ E2 | N2 ].
    + now rewrite E2, string_compare_refl.
    + destruct (String.compare (snd k) (snd k')) eqn:C; try reflexivity.
      apply String.compare_eq_iff in C. contradiction.
  - cbn. destruct (String.compare (fst k) (fst k')) eqn:C; try reflexivity.
    apply String.compare_eq_iff in C. contradiction.
Qed.

Lemma string_cmp_eqb (k k' : string) :
  match String.compare k k' with Eq => true | _ => false end = (k =? k')%string.
Proof.
  destruct (String.eqb_spec k k') as [ E | N ].
  - now rewrite E, string_compare_refl.
  - destruct (String.compare k k') eqn:C; try reflexivity.
    apply String.compare_eq_iff in C. contradiction.
Qed.

Lemma filter_map_comm {A B : Type} (f : A -> B) (p : B -> bool) (l : list A) :
  filter p (map f l) = map f (filter (fun a => p (f a)) l).
Proof.
  induction l as [ | a l IH ]; cbn; [ reflexivity | ].
  destruct (p (f a)); cbn; now rewrite IH.
Qed.

Lemma song_rows_of_export (hm : bool) (k : string * string) (evs : list Event) :
  rows_of_key song_cmp song_key k (map (row_of hm) evs)
  = map (row_of hm) (filter (is_song k) evs).
Proof.
  unfold rows_of_key. rewrite filter_map_comm. f_equal.
  apply filter_ext. intros e. rewrite song_key_row_of. unfold is_song.
  destruct (song_of e); [ apply song_cmp_eqb | reflexivity ].
Qed.

Lemma artist_rows_of_export (hm : bool) (k : string) (evs : list Event) :
  rows_of_key String.compare artist_key k (map (row_of hm) evs)
  = map (row_of hm) (filter (is_artist k) evs).
Proof.
  unfold rows_of_key. rewrite filter_map_comm. f_equal.
  apply filter_ext. intros e. rewrite artist_key_row_of. unfold is_artist.
  destruct (artist_of e); [ apply string_cmp_eqb | reflexivity ].
Qed.

(** What pandas makes of the minutes of some records of an export is the
    Kahan sum of their minutes. *)
Lemma sum_of_rows_export (evs es : list Event) :
  (forall e, In e es -> In e evs) ->
  sum_of_rows (map (row_of (has_msPlayed evs)) es)
  = kahan_sum
      (flat_map (fun e => match duration e with Some x => [x] | None => [] end) es).
Proof.
  intros Hin. unfold sum_of_rows, kahan_sum. rewrite map_map.
  destruct (has_msPlayed evs) eqn:EM.
  - rewrite accumulate_kahan. cbn [fst snd]. f_equal.
    clear Hin. induction es as [ | e es IH ]; cbn [map flat_map];
      [ reflexivity | ].
    rewrite IH. reflexivity.
  - rewrite accumulate_zeros.
    + cbn [fst]. replace (flat_map _ es) with (@nil float); [ reflexivity | ].
      symmetry. induction es as [ | e es IH ]; cbn; [ reflexivity | ].
      rewrite (no_msPlayed_no_duration evs e EM) by (apply Hin; now left).
      apply IH. intros e' He'. apply Hin. now right.
    + rewrite Forall_forall. intros c Hc.
      apply in_map_iff in Hc as (e & <- & _). now right.
Qed.

Lemma grouped_songs_table (df : DataFrame) (g : list (string * string * float)) :
  grouped_songs df = inr g -> g = groupby_sum song_cmp song_key (rows df).
Proof.
  unfold grouped_songs.
  destruct (has_column "trackName" df && has_column "artistName" df);
    [ | discriminate ].
  intros H. now injection H.
Qed.

Lemma grouped_artists_table (df : DataFrame) (g : list (string * float)) :
  grouped_artists df = inr g -> g = groupby_sum String.compare artist_key (rows df).
Proof.
  unfold grouped_artists. destruct (has_column "artistName" df); [ | discriminate ].
  intros H. now injection H.
Qed.

(** The table of songs of an export: its keys are the songs the records
    carry, and it holds the summed minutes of each. *)
Lemma songs_table_In (evs : list Event) (df : DataFrame)
  (k : string * string) (s : float) :
  of_records evs = inr df ->
  In (k, s) (groupby_sum song_cmp song_key (rows df))
  <-> (exists ev, In ev evs /\ song_of ev = Some k) /\ s = song_minutes evs k.
Proof.
  intros H. apply of_records_map in H as [_ HR]. rewrite HR.
  rewrite (groupby_In song_cmp), (rows_of_key_nonempty song_cmp).
  rewrite song_rows_of_export, sum_of_rows_export
    by (intros e He; now apply filter_In in He).
  fold (minutes_of (is_song k) evs). fold (song_minutes evs k).
  split; intros [(x & Hx & Hk) Hs]; (split; [ | exact Hs ]).
  - apply in_map_iff in Hx as (ev & <- & Hev). now exists ev.
  - exists (row_of (has_msPlayed evs) x). split; [ now apply in_map | exact Hk ].
Qed.

Lemma artists_table_In (evs : list Event) (df : DataFrame) (k : string) (s : float) :
  of_records evs = inr df ->
  In (k, s) (groupby_sum String.compare artist_key (rows df))
  <-> (exists ev, In ev evs /\ artist_of ev = Some k) /\ s = artist_minutes evs k.
Proof.
  intros H. apply of_records_map in H as [_ HR]. rewrite HR.
  rewrite (groupby_In String.compare), (rows_of_key_nonempty String.compare).
  rewrite artist_rows_of_export, sum_of_rows_export
    by (intros e He; now apply filter_In in He).
  fold (minutes_of (is_artist k) evs). fold (artist_minutes evs k).
  split; intros [(x & Hx & Hk) Hs]; (split; [ | exact Hs ]).
  - apply in_map_iff in Hx as (ev & <- & Hev). now exists ev.
  - exists (row_of (has_msPlayed evs) x). split; [ now apply in_map | exact Hk ].
Qed.

Lemma song_keys_of_export (evs : list Event) (df : DataFrame) (k : string * string) :
  of_records evs = inr df ->
  In k (map fst (groupby_sum song_cmp song_key (rows df)))
  <-> exists ev, In ev evs /\ song_of ev = Some k.
Proof.
  intros H. rewrite in_map_iff. split.
  - intros ([k' s] & E & Hin). cbn in E. subst k'.
    now apply (songs_table_In evs df k s H) in Hin as [Hk _].
  - intros Hk. exists (k, song_minutes evs k). split; [ reflexivity | ].
    apply (songs_table_In evs df k _ H). now split.
Qed.

Lemma artist_keys_of_export (evs : list Event) (df : DataFrame) (k : string) :
  of_records evs = inr df ->
  In k (map fst (groupby_sum String.compare artist_key (rows df)))
  <-> exists ev, In ev evs /\ artist_of ev = Some k.
Proof.
  intros H. rewrite in_map_iff. split.
  - intros ([k' s] & E & Hin). cbn in E. subst k'.
    now apply (artists_table_In evs df k s H) in Hin as [Hk _].
  - intros Hk. exists (k, artist_minutes evs k). split; [ reflexivity | ].
    apply (artists_table_In evs df k _ H). now split.
Qed.

Lemma songs_of_In (evs : list Event) (k : string * string) :
  In k (songs_of evs) <-> exists ev, In ev evs /\ song_of ev = Some k.
Proof.
  unfold songs_of. rewrite nodup_In, in_flat_map. split.
  - intros (ev & Hev & Hk). exists ev. split; [ exact Hev | ].
    destruct (song_of ev); [ | contradiction ]. destruct Hk as [ -> | [] ]. reflexivity.
  - intros (ev & Hev & Hk). exists ev. split; [ exact Hev | ]. rewrite Hk. now left.
Qed.

Lemma artists_of_In (evs : list Event) (k : string) :
  In k (artists_of evs) <-> exists ev, In ev evs /\ artist_of ev = Some k.
Proof.
  unfold artists_of. rewrite nodup_In, in_flat_map. split.
  - intros (ev & Hev & Hk). exists ev. split; [ exact Hev | ].
    destruct (artist_of ev); [ | contradiction ]. destruct Hk as [ -> | [] ]. reflexivity.
  - intros (ev & Hev & Hk). exists ev. split; [ exact Hev | ]. rewrite Hk. now left.
Qed.

Lemma song_of_Some (e : Event) (k : string * string) :
  song_of e = Some k
  <-> text_of (ev_trackName e) = Some (fst k)
      /\ text_of (ev_artistName e) = Some (snd k).
Proof.
  unfold song_of.
  destruct (text_of (ev_trackName e)) as [ t | ],
    (text_of (ev_artistName e)) as [ a | ], k as [k1 k2];
    cbn; split; intros H; try discriminate; try (destruct H; congruence);
    try (injection H as <- <-; now split).
Qed.

Lemma text_of_Some (f : field Name) (s : string) :
  text_of f = Some s <-> exists n, f = Value n /\ text n = s.
Proof.
  unfold text_of. destruct f as [ | | n ]; cbn; split.
  - discriminate.
  - intros (n & H & _). discriminate.
  - discriminate.
  - intros (n & H & _). discriminate.
  - intros H. injection H as <-. now exists n.
  - intros (n' & H & <-). now injection H as <-.
Qed.

Lemma text_of_None (f : field Name) : text_of f = None <-> cell f = None.
Proof. unfold text_of. destruct (cell f); cbn; split; intros; congruence. Qed.

Lemma grouped_songs_sorted (df : DataFrame) (g : list (string * string * float)) :
  grouped_songs df = inr g -> key_sorted song_cmp g.
Proof.
  intros H. apply grouped_songs_table in H. subst g.
  apply groupby_sorted. exact song_order.
Qed.

Lemma grouped_artists_sorted (df : DataFrame) (g : list (string * float)) :
  grouped_artists df = inr g -> key_sorted String.compare g.
Proof.
  intros H. apply grouped_artists_table in H. subst g.
  apply groupby_sorted. exact string_order.
Qed.

(** The table of songs has one group for each song of the export. *)
Lemma songs_table_length (evs : list Event) (df : DataFrame) :
  of_records evs = inr df ->
  List.length (groupby_sum song_cmp song_key (rows df))
  = List.length (songs_of evs).
Proof.
  intros H. rewrite <- (length_map fst). apply Permutation_length.
  apply NoDup_Permutation.
  - apply (key_sorted_NoDup song_cmp), groupby_sorted. exact song_order.
  - apply NoDup_nodup.
  - intros k. now rewrite (song_keys_of_export _ _ _ H), songs_of_In.
Qed.

(** * The queries, unfolded *)

Lemma top_song_of_table (qs : Quicksort) (df : DataFrame)
  (g : list (string * string * float)) :
  empty df = false -> grouped_songs df = inr g ->
  top_song qs df
  = (top <- iloc0 (sort_values qs g) ;; s <- song_stat top ;; ret (Some s)).
Proof. intros He Hg. unfold top_song. rewrite He, Hg. reflexivity. Qed.

Lemma top_artist_of_table (qs : Quicksort) (df : DataFrame)
  (g : list (string * float)) :
  empty df = false -> grouped_artists df = inr g ->
  top_artist qs df
  = (top <- iloc0 (sort_values qs g) ;; s <- artist_stat top ;; ret (Some s)).
Proof. intros He Hg. unfold top_artist. rewrite He, Hg. reflexivity. Qed.

Lemma top_3_songs_of_table (qs : Quicksort) (df : DataFrame)
  (g : list (string * string * float)) (n : nat) :
  empty df = false -> grouped_songs df = inr g ->
  top_3_songs qs df (Some n) = mapM song_stat (firstn n (sort_values qs g)).
Proof. intros He Hg. unfold top_3_songs, head. rewrite He, Hg. reflexivity. Qed.

Lemma top_song_inv (qs : Quicksort) (df : DataFrame) (s : SongStat) :
  top_song qs df = inr (Some s) ->
  empty df = false
  /\ exists g top rest,
       grouped_songs df = inr g
       /\ sort_values qs g = top :: rest
       /\ song_stat top = inr s.
Proof.
  unfold top_song. destruct (empty df); [ discriminate | ].
  destruct (grouped_songs df) as [ e | g ]; cbn; [ discriminate | ].
  destruct (sort_values qs g) as [ | top rest ] eqn:E; cbn; [ discriminate | ].
  destruct (song_stat top) as [ e | s' ] eqn:Es; cbn; [ discriminate | ].
  intros H. injection H as <-. split; [ reflexivity | ].
  now exists g, top, rest.
Qed.

Lemma top_artist_inv (qs : Quicksort) (df : DataFrame) (s : ArtistStat) :
  top_artist qs df = inr (Some s) ->
  empty df = false
  /\ exists g top rest,
       grouped_artists df = inr g
       /\ sort_values qs g = top :: rest
       /\ artist_stat top = inr s.
Proof.
  unfold top_artist. destruct (empty df); [ discriminate | ].
  destruct (grouped_artists df) as [ e | g ]; cbn; [ discriminate | ].
  destruct (sort_values qs g) as [ | top rest ] eqn:E; cbn; [ discriminate | ].
  destruct (artist_stat top) as [ e | s' ] eqn:Es; cbn; [ discriminate | ].
  intros H. injection H as <-. split; [ reflexivity | ].
  now exists g, top, rest.
Qed.

Lemma top_3_songs_inv (qs : Quicksort) (df : DataFrame) (n : nat) (l : list SongStat) :
  top_3_songs qs df (Some n) = inr l ->
  (empty df = true /\ l = [])
  \/ (empty df = false
      /\ exists g, grouped_songs df = inr g
                   /\ mapM song_stat (firstn n (sort_values qs g)) = inr l).
Proof.
  unfold top_3_songs, head. destruct (empty df).
  - intros H. injection H as <-. now left.
  - destruct (grouped_songs df) as [ e | g ]; cbn; [ discriminate | ].
    intros H. right. split; [ reflexivity | ]. now exists g.
Qed.

Lemma song_stat_inv (g : string * string * float) (s : SongStat) :
  song_stat g = inr s ->
  song s = fst (fst g) /\ artist s = snd (fst g)
  /\ Float64.py_int (snd g) = inr (mins s).
Proof.
  unfold song_stat. destruct (Float64.py_int (snd g)) as [ e | z ]; cbn;
    [ discriminate | ].
  intros H. injection H as <-. now repeat split.
Qed.

Lemma artist_stat_inv (g : string * float) (s : ArtistStat) :
  artist_stat g = inr s ->
  a_artist s = fst g /\ Float64.py_int (snd g) = inr (a_mins s).
Proof.
  unfold artist_stat. destruct (Float64.py_int (snd g)) as [ e | z ]; cbn;
    [ discriminate | ].
  intros H. injection H as <-. now split.
Qed.

Lemma Forall2_In_r {A B : Type} (R : A -> B -> Prop) (l : list A) (l' : list B) (b : B) :
  Forall2 R l l' -> In b l' -> exists a, In a l /\ R a b.
Proof.
  induction 1 as [ | a b' l l' Hab _ IH ]; cbn; [ contradiction | ].
  intros [ <- | Hin ].
  - exists a. split; [ now left | assumption ].
  - destruct (IH Hin) as (a' & Ha' & HR). exists a'. split; [ now right | assumption ].
Qed.

Lemma cell_Some {A : Type} (f : field A) (a : A) : cell f = Some a <-> f = Value a.
Proof. destruct f; cbn; split; intros H; try discriminate; congruence. Qed.

Lemma mapM_raises {A B : Type} (f : A -> result B) (l : list A) :
  (exists e, mapM f l = inl e) <-> exists a e, In a l /\ f a = inl e.
Proof.
  induction l as [ | a l IH ]; cbn.
  - split; [ intros [e H]; discriminate | intros (a & e & [] & _) ].
  - destruct (f a) as [ e | b ] eqn:Ea; cbn.
    + split; [ intros _; exists a, e; split; [ now left | exact Ea ] | intros _; now exists e ].
    + destruct (mapM f l) as [ e | bs ] eqn:El; cbn.
      * split; [ | intros _; now exists e ].
        intros _. destruct (proj1 IH) as (a' & e' & Hin & H'); [ now exists e | ].
        exists a', e'. split; [ now right | exact H' ].
      * split; [ intros [e H]; discriminate | ].
        intros (a' & e' & [ <- | Hin ] & H'); [ congruence | ].
        destruct (proj2 IH) as [e'' H'']; [ now exists a', e' | discriminate ].
Qed.

Lemma mapM_raised {A B : Type} (f : A -> result B) (l : list A) (e : exn) :
  mapM f l = inl e -> exists a, In a l /\ f a = inl e.
Proof.
  induction l as [ | a l IH ]; cbn; [ discriminate | ].
  destruct (f a) as [ e' | b ] eqn:Ea; cbn.
  - intros H. injection H as <-. exists a. split; [ now left | exact Ea ].
  - destruct (mapM f l) as [ e' | bs ]; cbn; [ | discriminate ].
    intros H. injection H as <-. destruct IH as (a' & Hin & H'); [ reflexivity | ].
    exists a'. split; [ now right | exact H' ].
Qed.

Lemma mapM_total {A B : Type} (f : A -> result B) (l : list A) :
  (forall a, In a l -> exists b, f a = inr b) -> exists r, mapM f l = inr r.
Proof.
  induction l as [ | a l IH ]; cbn; intros H.
  - now exists [].
  - destruct (H a) as [b Hb]; [ now left | ].
    destruct IH as [r Hr]; [ intros a' Ha'; apply H; now right | ].
    exists (b :: r). rewrite Hb. cbn. rewrite Hr. reflexivity.
Qed.

Lemma astype_float_raises (c : option scalar) (e : exn) :
  astype_float c = inl e
  <-> e = ValueError
      /\ exists s, c = Some (Text s) /\ Float64.py_float (chars s) = None.
Proof.
  unfold astype_float. destruct c as [ [ z | s | b ] | ]; cbn.
  - split; [ discriminate | intros (_ & s & H & _); discriminate ].
  - destruct (Float64.py_float (chars s)) eqn:E; cbn.
    + split; [ discriminate | ]. intros (_ & s' & H & H'). injection H as <-. congruence.
    + split.
      * intros H. injection H as <-. split; [ reflexivity | ]. now exists s.
      * intros [-> _]. reflexivity.
  - split; [ discriminate | intros (_ & s & H & _); discriminate ].
  - split; [ discriminate | intros (_ & s & H & _); discriminate ].
Qed.

(** The constructor raises exactly when a record holds under [msPlayed] a
    string that [float()] does not read, and then ValueError. *)
Lemma of_records_raises (evs : list Event) :
  (exists e, of_records evs = inl e)
  <-> exists c, In c (map ev_msPlayed evs)
                /\ exists e, astype_float (cell c) = inl e.
Proof.
  rewrite of_records_unfold.
  destruct (has_msPlayed evs) eqn:EM.
  - split.
    + intros [e H].
      destruct (mapM _ evs) as [ e' | rs ] eqn:E; cbn in H; [ | discriminate ].
      apply mapM_raised in E as (ev & Hin & Hev).
      destruct (astype_float (cell (ev_msPlayed ev))) as [ e'' | x ] eqn:Ex;
        cbn in Hev; [ | discriminate ].
      exists (ev_msPlayed ev). split; [ now apply in_map | now exists e'' ].
    + intros (c & Hc & e & He). apply in_map_iff in Hc as (ev & <- & Hev).
      destruct (proj2 (mapM_raises
        (fun e => x <- astype_float (cell (ev_msPlayed e)) ;;
                  ret (set_minutes (div_cell x 60000%float) (row_of_record e)))
        evs)) as [e' He'].
      { exists ev, e. split; [ assumption | ]. rewrite He. reflexivity. }
      exists e'. rewrite He'. reflexivity.
  - split; [ intros [e H]; discriminate | ].
    intros (c & Hc & e & He). apply in_map_iff in Hc as (ev & <- & Hev).
    rewrite (absent_cell _ (existsb_false_In _ _ _ EM Hev)) in He. discriminate.
Qed.

Lemma of_records_unreadable (evs : list Event) :
  (exists e, of_records evs = inl e)
  <-> exists ev s, In ev evs /\ ev_msPlayed ev = Value (Text s)
                   /\ Float64.py_float (chars s) = None.
Proof.
  rewrite of_records_raises. split.
  - intros (c & Hc & e & He). apply in_map_iff in Hc as (ev & <- & Hev).
    apply astype_float_raises in He as (_ & s & Hs & Hf).
    exists ev, s. repeat split; try assumption. now apply cell_Some.
  - intros (ev & s & Hev & Hs & Hf). exists (ev_msPlayed ev).
    split; [ now apply in_map | ]. exists ValueError.
    apply astype_float_raises. split; [ reflexivity | ]. exists s.
    split; [ now apply cell_Some | exact Hf ].
Qed.

Lemma of_records_ValueError (evs : list Event) (e : exn) :
  of_records evs = inl e -> e = ValueError.
Proof.
  rewrite of_records_unfold.
  destruct (has_msPlayed evs); [ | discriminate ].
  destruct (mapM _ evs) as [ e' | rs ] eqn:E; cbn; [ | discriminate ].
  intros H. injection H as <-.
  apply mapM_raised in E as (ev & _ & Hev).
  destruct (astype_float (cell (ev_msPlayed ev))) as [ e'' | x ] eqn:Ex;
    cbn in Hev; [ | discriminate ].
  injection Hev as <-. now apply astype_float_raises in Ex as [-> _].
Qed.

(** * The claims *)







(** C3.  On the scenario of the specification the four queries return 2,
    song A of artist X with 2 minutes, artist X with 2 minutes, and the list
    A (2 minutes), B (0 minutes), whatever the sort does with equal sums.
    The dictionaries name the count [mins]. *)
Theorem scenario_results (qs : Quicksort) :
  of_records scenario = inr scenario_frame
  /\ total_minutes scenario_frame = inr 2
  /\ top_song qs scenario_frame
     = inr (Some {| song := "A"; artist := "X"; mins := 2 |})
  /\ top_artist qs scenario_frame = inr (Some {| a_artist := "X"; a_mins := 2 |})
  /\ top_3_songs qs scenario_frame (Some 3%nat)
     = inr [ {| song := "A"; artist := "X"; mins := 2 |};
             {| song := "B"; artist := "X"; mins := 0 |} ].
Proof.
  assert (G : grouped_songs scenario_frame
              = inr [("A", "X", 2%float); ("B", "X", 0.5%float)]) by reflexivity.
  assert (GA : grouped_artists scenario_frame = inr [("X", 2.5%float)])
    by reflexivity.
  assert (S : sort_values qs [("A", "X", 2%float); ("B", "X", 0.5%float)]
              = [("A", "X", 2%float); ("B", "X", 0.5%float)]).
  { apply sort_values_strict. repeat constructor. }
  assert (SA : sort_values qs [("X", 2.5%float)] = [("X", 2.5%float)]).
  { apply sort_values_strict. repeat constructor. }
  split; [ reflexivity | ]. split; [ reflexivity | ]. split; [ | split ].
  - rewrite (top_song_of_table qs scenario_frame _ eq_refl G), S. reflexivity.
  - rewrite (top_artist_of_table qs scenario_frame _ eq_refl GA), SA. reflexivity.
  - rewrite (top_3_songs_of_table qs scenario_frame _ 3 eq_refl G), S. reflexivity.
Qed.

Lemma init_loaded
  (parse_document parse_lines : list byte -> option (list Event))
  (text : list byte) :
  init parse_document parse_lines (seek 0 {| getvalue := text; tell := 0 |})
  = match loaded parse_document parse_lines text with
    | Some evs => of_records evs
    | None => inl ValueError
    end.
Proof.
  unfold init, load, read_json, read, seek, loaded. cbn.
  destruct (parse_document text); cbn; [ reflexivity | ].
  destruct (parse_lines text); reflexivity.
Qed.



Lemma Forall2_map_r {A B : Type} (R : A -> B -> Prop) (f : A -> B) (l : list A) :
  (forall a, In a l -> R a (f a)) -> Forall2 R l (map f l).
Proof.
  induction l as [ | a l IH ]; cbn; intros H; constructor.
  - apply H. now left.
  - apply IH. intros a' Ha'. apply H. now right.
Qed.

Lemma has_msPlayed_In (evs : list Event) (e : Event) :
  In e evs -> present (ev_msPlayed e) = true -> has_msPlayed evs = true.
Proof. intros He Hp. apply existsb_exists. now exists e. Qed.



(** C6, as the code has it.  The constructor keeps one row per record, with
    its names as they are: a missing or null name stays missing (NaN), it
    is not turned into the empty string.  Such a record counts in the total
    with its minutes like any other, but the groupings are made of the
    records that carry the grouping names only. *)
Theorem missing_names_stay_missing (evs : list Event) (df : DataFrame) :
  of_records evs = inr df ->
  List.length (rows df) = List.length evs
  /\ Forall2
       (fun ev r => trackName r = text_of (ev_trackName ev)
                    /\ artistName r = text_of (ev_artistName ev)
                    /\ (cell (ev_trackName ev) = None -> trackName r = None)
                    /\ (cell (ev_artistName ev) = None -> artistName r = None))
       evs (rows df)
  /\ total_minutes df = Float64.py_int (np_sum (map played_minutes evs))
  /\ (forall g k s, grouped_songs df = inr g -> In (k, s) g ->
        exists ev t a, In ev evs /\ ev_trackName ev = Value t
                       /\ ev_artistName ev = Value a
                       /\ k = (text t, text a))
  /\ (forall g k s, grouped_artists df = inr g -> In (k, s) g ->
        exists ev a, In ev evs /\ ev_artistName ev = Value a /\ k = text a).
Proof.
  intros H. split; [ now apply of_records_length | ].
  split; [ | split; [ now apply total_minutes_played | split ] ].
  - destruct (of_records_map _ _ H) as [_ ->]. apply Forall2_map_r.
    intros ev _. cbn. repeat split; intros E; now apply text_of_None.
  - intros g k s Hg Hin. apply grouped_songs_table in Hg. subst g.
    apply (songs_table_In evs df k s H) in Hin as [(ev & Hev & Hk) _].
    apply song_of_Some in Hk as [Ht Ha].
    apply text_of_Some in Ht as (t & Ht & Et), Ha as (a & Ha & Ea).
    exists ev, t, a. repeat split; try assumption.
    destruct k; cbn in *; congruence.
  - intros g k s Hg Hin. apply grouped_artists_table in Hg. subst g.
    apply (artists_table_In evs df k s H) in Hin as [(ev & Hev & Hk) _].
    apply text_of_Some in Hk as (a & Ha & Ea).
    exists ev, a. repeat split; try assumption. now symmetry.
Qed.

Lemma missing_names_stay_missing_witness :
  of_records renamed_scenario = inr renamed_frame
  /\ map trackName (rows renamed_frame) = [None; Some "D"; Some "E"]
  /\ total_minutes renamed_frame = inr 2.
Proof.
  split; [ reflexivity | ]. split; [ reflexivity | ].
  refine (eq_trans
            (proj1 (proj2 (proj2
               (missing_names_stay_missing renamed_scenario renamed_frame eq_refl))))
            _).
  reflexivity.
Defined.

(** C6 as stated fails: a record without [trackName] gets NaN, not the
    empty string, for its track, and the grouping by song leaves it out:
    the one group of songs is A with 1 minute, and A is the top song,
    although the record without a track name played 2 minutes. *)
Lemma missing_track_is_left_out :
  exists df,
    of_records
      [ {| ev_trackName := Absent; ev_artistName := Value (name "Y");
           ev_msPlayed := Value (Number 120000) |};
        play "A" "X" 60000 ] = inr df
    /\ map trackName (rows df) = [None; Some "A"]
    /\ map trackName (rows df) <> [Some ""; Some "A"]
    /\ grouped_songs df = inr [("A", "X", 1%float)]
    /\ top_song insertion df
       = inr (Some {| song := "A"; artist := "X"; mins := 1 |})
    /\ top_artist insertion df = inr (Some {| a_artist := "Y"; a_mins := 2 |}).
Proof.
  eexists. split; [ reflexivity | ]. split; [ reflexivity | ].
  split; [ discriminate | ]. repeat split; reflexivity.
Qed.

(** C7 on the code.  On no record the queries return 0, None, None and the
    empty list.  On an export whose records have no [trackName] the frame
    has no such column and [top_song] and [top_3_songs] raise KeyError; on
    an export where no record has both names the grouping is empty and
    [top_song] raises IndexError at [iloc[0]]; likewise [top_artist] when
    every [artistName] is null. *)
Theorem queries_raise_on_missing_names (qs : Quicksort) :
  (exists df,
      of_records [] = inr df
      /\ total_minutes df = inr 0
      /\ top_song qs df = inr None
      /\ top_artist qs df = inr None
      /\ top_3_songs qs df None = inr [])
  /\ (exists df,
         of_records
           [ {| ev_trackName := Absent; ev_artistName := Value (name "X");
                ev_msPlayed := Value (Number 60000) |} ] = inr df
         /\ empty df = false
         /\ top_song qs df = inl KeyError
         /\ top_3_songs qs df None = inl KeyError)
  /\ (exists df,
         of_records
           [ {| ev_trackName := Value (name "A"); ev_artistName := Absent;
                ev_msPlayed := Value (Number 60000) |};
             {| ev_trackName := Absent; ev_artistName := Value (name "X");
                ev_msPlayed := Value (Number 60000) |} ] = inr df
         /\ top_song qs df = inl IndexError)
  /\ (exists df,
         of_records
           [ {| ev_trackName := Value (name "A"); ev_artistName := Null;
                ev_msPlayed := Value (Number 60000) |} ] = inr df
         /\ top_artist qs df = inl IndexError).
Proof.
  pose proof (proj2 (sort_values_nil qs (K := string * string) []) eq_refl) as S.
  pose proof (proj2 (sort_values_nil qs (K := string) []) eq_refl) as SA.
  split; [ | split; [ | split ] ].
  - eexists. repeat split; reflexivity.
  - eexists. repeat split; reflexivity.
  - eexists. split; [ reflexivity | ].
    match goal with
    | |- top_song qs ?df = _ =>
        rewrite (top_song_of_table qs df [] eq_refl eq_refl)
    end.
    rewrite S. reflexivity.
  - eexists. split; [ reflexivity | ].
    match goal with
    | |- top_artist qs ?df = _ =>
        rewrite (top_artist_of_table qs df [] eq_refl eq_refl)
    end.
    rewrite SA. reflexivity.
Qed.

(** * The records and their order *)

Lemma existsb_perm {A : Type} (f : A -> bool) (l l' : list A) :
  Permutation l l' -> existsb f l = existsb f l'.
Proof.
  intros HP. destruct (existsb f l) eqn:E1; symmetry.
  - apply existsb_exists in E1 as (a & Ha & Hf). apply existsb_exists.
    exists a. split; [ now apply (Permutation_in _ HP) | assumption ].
  - destruct (existsb f l') eqn:E2; [ | reflexivity ].
    apply existsb_exists in E2 as (a & Ha & Hf).
    rewrite (existsb_false_In _ _ _ E1
               (Permutation_in _ (Permutation_sym HP) Ha)) in Hf.
    discriminate.
Qed.

(** The frames of the same records in two orders have the same columns
    and are both empty or both not. *)
Lemma of_records_perm_shape (evs evs' : list Event) (df df' : DataFrame) :
  Permutation evs evs' ->
  of_records evs = inr df -> of_records evs' = inr df' ->
  empty df' = empty df
  /\ has_column "trackName" df' = has_column "trackName" df
  /\ has_column "artistName" df' = has_column "artistName" df.
Proof.
  intros HP H H'.
  destruct (of_records_shape _ _ H) as (He & Ht & Ha).
  destruct (of_records_shape _ _ H') as (He' & Ht' & Ha').
  rewrite He, He', Ht, Ht', Ha, Ha'.
  rewrite !(existsb_perm _ _ _ HP). split; [ | now split ].
  destruct evs, evs'; try reflexivity.
  - apply Permutation_nil in HP. discriminate.
  - apply Permutation_sym, Permutation_nil in HP. discriminate.
Qed.

Lemma sorted_table_unique {K V : Type} (cmp : K -> K -> comparison)
  `{!KeyOrder cmp} (l l' : list (K * V)) :
  key_sorted cmp l -> key_sorted cmp l' ->
  (forall x, In x l <-> In x l') ->
  l = l'.
Proof.
  unfold key_sorted. revert l'.
  induction l as [ | a l IH ]; intros l' HS HS' Hin.
  - destruct l' as [ | b l' ]; [ reflexivity | ].
    destruct (proj2 (Hin b)). now left.
  - destruct l' as [ | b l' ].
    + destruct (proj1 (Hin a)). now left.
    + cbn in HS, HS'.
      apply StronglySorted_inv in HS as [HS HF], HS' as [HS' HF'].
      rewrite Forall_forall in HF, HF'.
      assert (E : a = b).
      { destruct (proj1 (Hin a)) as [ E | Ha ]; [ now left | now symmetry | ].
        destruct (proj2 (Hin b)) as [ E | Hb ]; [ now left | exact E | ].
        pose proof (HF' _ (in_map fst _ _ Ha)) as H1.
        pose proof (HF _ (in_map fst _ _ Hb)) as H2.
        pose proof (cmp_trans _ _ _ H1 H2) as H3. rewrite cmp_refl in H3.
        discriminate. }
      subst b. f_equal. apply IH; [ exact HS | exact HS' | ].
      intros x. split; intros Hx.
      * destruct (proj1 (Hin x)) as [ E | Hx' ]; [ now right | | exact Hx' ].
        subst x. specialize (HF _ (in_map fst _ _ Hx)).
        rewrite cmp_refl in HF. discriminate.
      * destruct (proj2 (Hin x)) as [ E | Hx' ]; [ now right | | exact Hx' ].
        subst x. specialize (HF' _ (in_map fst _ _ Hx)).
        rewrite cmp_refl in HF'. discriminate.
Qed.

Lemma is_song_true (k : string * string) (e : Event) :
  is_song k e = true <-> song_of e = Some k.
Proof.
  unfold is_song. destruct (song_of e) as [ [t a] | ]; destruct k as [k1 k2]; cbn.
  - rewrite andb_true_iff, !String.eqb_eq. split.
    + intros [-> ->]. reflexivity.
    + intros H. injection H as -> ->. now split.
  - split; discriminate.
Qed.

Lemma is_artist_true (k : string) (e : Event) :
  is_artist k e = true <-> artist_of e = Some k.
Proof.
  unfold is_artist. destruct (artist_of e) as [ a | ].
  - rewrite String.eqb_eq. split; [ intros ->; reflexivity | intros H; now injection H ].
  - split; discriminate.
Qed.

Lemma carried_filter (p : Event -> bool) (evs evs' : list Event) :
  filter p evs' = filter p evs ->
  (exists ev, In ev evs' /\ p ev = true) <-> (exists ev, In ev evs /\ p ev = true).
Proof.
  intros E. split; intros (ev & Hev); exists ev; apply filter_In;
    apply filter_In in Hev; congruence.
Qed.

(** The table of songs depends on the export through the records of each
    song, taken in their order, and on nothing else. *)
Lemma songs_table_ext (evs evs' : list Event) (df df' : DataFrame) :
  of_records evs = inr df -> of_records evs' = inr df' ->
  (forall k, filter (is_song k) evs' = filter (is_song k) evs) ->
  groupby_sum song_cmp song_key (rows df')
  = groupby_sum song_cmp song_key (rows df).
Proof.
  intros H H' Hk. apply (sorted_table_unique song_cmp).
  - apply groupby_sorted. exact song_order.
  - apply groupby_sorted. exact song_order.
  - intros [k s].
    rewrite (songs_table_In evs' df' k s H'), (songs_table_In evs df k s H).
    unfold song_minutes, minutes_of. rewrite (Hk k).
    assert (C : (exists ev, In ev evs' /\ song_of ev = Some k)
                <-> (exists ev, In ev evs /\ song_of ev = Some k)).
    { pose proof (carried_filter _ _ _ (Hk k)) as C.
      split; intros (ev & Hev & Hs).
      - destruct (proj1 C) as (ev' & Hev' & Hs');
          [ exists ev; split; [ exact Hev | now apply is_song_true ] | ].
        exists ev'. split; [ exact Hev' | now apply is_song_true ].
      - destruct (proj2 C) as (ev' & Hev' & Hs');
          [ exists ev; split; [ exact Hev | now apply is_song_true ] | ].
        exists ev'. split; [ exact Hev' | now apply is_song_true ]. }
    now rewrite C.
Qed.

Lemma artists_table_ext (evs evs' : list Event) (df df' : DataFrame) :
  of_records evs = inr df -> of_records evs' = inr df' ->
  (forall k, filter (is_artist k) evs' = filter (is_artist k) evs) ->
  groupby_sum String.compare artist_key (rows df')
  = groupby_sum String.compare artist_key (rows df).
Proof.
  intros H H' Hk. apply (sorted_table_unique String.compare).
  - apply groupby_sorted. exact string_order.
  - apply groupby_sorted. exact string_order.
  - intros [k s].
    rewrite (artists_table_In evs' df' k s H'), (artists_table_In evs df k s H).
    unfold artist_minutes, minutes_of. rewrite (Hk k).
    assert (C : (exists ev, In ev evs' /\ artist_of ev = Some k)
                <-> (exists ev, In ev evs /\ artist_of ev = Some k)).
    { pose proof (carried_filter _ _ _ (Hk k)) as C.
      split; intros (ev & Hev & Hs).
      - destruct (proj1 C) as (ev' & Hev' & Hs');
          [ exists ev; split; [ exact Hev | now apply is_artist_true ] | ].
        exists ev'. split; [ exact Hev' | now apply is_artist_true ].
      - destruct (proj2 C) as (ev' & Hev' & Hs');
          [ exists ev; split; [ exact Hev | now apply is_artist_true ] | ].
        exists ev'. split; [ exact Hev' | now apply is_artist_true ]. }
    now rewrite C.
Qed.




Lemma mapM_firstn {A B : Type} (f : A -> result B) (n : nat) (l : list A) (r : list B) :
  mapM f l = inr r -> mapM f (firstn n l) = inr (firstn n r).
Proof.
  revert n r. induction l as [ | a l IH ]; intros n r H.
  - cbn in H. injection H as <-. now rewrite !firstn_nil.
  - cbn in H. destruct (f a) as [ e | b ] eqn:Ea; cbn in H; [ discriminate | ].
    destruct (mapM f l) as [ e | bs ] eqn:El; cbn in H; [ discriminate | ].
    injection H as <-. destruct n as [ | n ]; [ reflexivity | ].
    cbn. rewrite Ea. cbn. rewrite (IH n bs eq_refl). reflexivity.
Qed.

Lemma NoDup_firstn_of {A : Type} (n : nat) (l : list A) :
  NoDup l -> NoDup (firstn n l).
Proof.
  intros H. rewrite <- (firstn_skipn n l) in H. now apply NoDup_app_remove_r in H.
Qed.

Lemma song_stats_keys (gs : list (string * string * float)) (l : list SongStat) :
  Forall2 (fun g s => song_stat g = inr s) gs l ->
  map (fun s => (song s, artist s)) l = map fst gs.
Proof.
  induction 1 as [ | g s gs l Hg _ IH ]; cbn; [ reflexivity | ].
  apply song_stat_inv in Hg as (H1 & H2 & _). rewrite H1, H2, IH.
  now destruct g as [[t a] m].
Qed.

(** An order of a list is carried over to a list that matches it
    element by element. *)
Lemma StronglySorted_Forall2 {A B : Type} (R : A -> B -> Prop)
  (P : A -> A -> Prop) (Q : B -> B -> Prop) (l : list A) (l' : list B) :
  (forall a b a' b', R a a' -> R b b' -> P a b -> Q a' b') ->
  Forall2 R l l' -> StronglySorted P l -> StronglySorted Q l'.
Proof.
  intros HPQ. induction 1 as [ | a a' l l' Ha HF IH ]; intros HS.
  - constructor.
  - apply StronglySorted_inv in HS as [HS Hall]. constructor; [ now apply IH | ].
    rewrite Forall_forall in *. intros b' Hb'.
    destruct (Forall2_In_r _ _ _ _ HF Hb') as (b & Hb & Hbb).
    eapply HPQ; [ exact Ha | exact Hbb | now apply Hall ].
Qed.

(** What a listed song reports: it is a song of the export, with the
    whole minutes of its sum. *)
Lemma listed_song (evs : list Event) (df : DataFrame)
  (h : string * string * float) (s : SongStat) :
  of_records evs = inr df ->
  In h (groupby_sum song_cmp song_key (rows df)) ->
  song_stat h = inr s ->
  fst h = (song s, artist s)
  /\ snd h = song_minutes evs (song s, artist s)
  /\ In (song s, artist s) (songs_of evs)
  /\ Float64.py_int (song_minutes evs (song s, artist s)) = inr (mins s).
Proof.
  intros H Hin Hs. apply song_stat_inv in Hs as (H1 & H2 & Hm).
  destruct h as [[t a] m]. cbn in H1, H2, Hm |- *. subst t a.
  apply (songs_table_In evs df _ _ H) in Hin as [Hc ->].
  repeat split; try assumption. now apply songs_of_In.
Qed.







(** * Further facts: when the queries raise *)

Lemma py_int_error (x : float) (e : exn) :
  Float64.py_int x = inl e -> e = ValueError \/ e = OverflowError.
Proof.
  unfold Float64.py_int. destruct (Prim2SF x); cbn; intros H;
    try discriminate; injection H as <-; auto.
Qed.

Lemma song_stat_error (g : string * string * float) (e : exn) :
  song_stat g = inl e -> e = ValueError \/ e = OverflowError.
Proof.
  unfold song_stat. destruct (Float64.py_int (snd g)) as [ e' | z ] eqn:E; cbn;
    [ | discriminate ].
  intros H. injection H as <-. now apply py_int_error in E.
Qed.

Lemma artist_stat_error (g : string * float) (e : exn) :
  artist_stat g = inl e -> e = ValueError \/ e = OverflowError.
Proof.
  unfold artist_stat. destruct (Float64.py_int (snd g)) as [ e' | z ] eqn:E; cbn;
    [ | discriminate ].
  intros H. injection H as <-. now apply py_int_error in E.
Qed.

Lemma existsb_present_false {A : Type} (f : Event -> field A) (evs : list Event) :
  existsb (fun e => present (f e)) evs = false
  <-> forall ev, In ev evs -> f ev = Absent.
Proof.
  split.
  - intros H ev Hev. pose proof (existsb_false_In _ _ _ H Hev) as HP. cbn in HP.
    destruct (f ev); try discriminate; reflexivity.
  - intros H. destruct (existsb (fun e => present (f e)) evs) eqn:E; [ | reflexivity ].
    apply existsb_exists in E as (ev & Hev & HP). rewrite (H ev Hev) in HP.
    discriminate.
Qed.

Lemma existsb_present_true {A : Type} (f : Event -> field A) (evs : list Event) :
  existsb (fun e => present (f e)) evs = true
  <-> exists ev, In ev evs /\ f ev <> Absent.
Proof.
  rewrite existsb_exists. split; intros (ev & Hev & H); exists ev; (split; [ exact Hev | ]).
  - intros E. rewrite E in H. discriminate.
  - destruct (f ev); try reflexivity. now contradiction H.
Qed.

Lemma song_of_None (e : Event) :
  song_of e = None
  <-> cell (ev_trackName e) = None \/ cell (ev_artistName e) = None.
Proof.
  unfold song_of. rewrite <- !text_of_None.
  destruct (text_of (ev_trackName e)), (text_of (ev_artistName e));
    split; intros H; try discriminate; try reflexivity; auto;
    destruct H; discriminate.
Qed.

(** The table is empty exactly when no record carries a key. *)
Lemma songs_table_nil (qs : Quicksort) (evs : list Event) (df : DataFrame) :
  of_records evs = inr df ->
  sort_values qs (groupby_sum song_cmp song_key (rows df)) = []
  <-> forall ev, In ev evs ->
        cell (ev_trackName ev) = None \/ cell (ev_artistName ev) = None.
Proof.
  intros H. rewrite sort_values_nil. split.
  - intros E ev Hev. apply song_of_None.
    destruct (song_of ev) as [ k | ] eqn:Ek; [ | reflexivity ].
    assert (Hk : In k (map fst (groupby_sum song_cmp song_key (rows df)))).
    { apply (song_keys_of_export _ _ _ H). now exists ev. }
    rewrite E in Hk. contradiction.
  - intros Hall.
    destruct (groupby_sum song_cmp song_key (rows df)) as [ | [k s] g ] eqn:E;
      [ reflexivity | ].
    assert (Hk : In k (map fst (groupby_sum song_cmp song_key (rows df)))).
    { rewrite E. now left. }
    apply (song_keys_of_export _ _ _ H) in Hk as (ev & Hev & Hs).
    apply Hall, song_of_None in Hev. congruence.
Qed.

Lemma artists_table_nil (qs : Quicksort) (evs : list Event) (df : DataFrame) :
  of_records evs = inr df ->
  sort_values qs (groupby_sum String.compare artist_key (rows df)) = []
  <-> forall ev, In ev evs -> cell (ev_artistName ev) = None.
Proof.
  intros H. rewrite sort_values_nil. split.
  - intros E ev Hev. apply text_of_None.
    destruct (text_of (ev_artistName ev)) as [ k | ] eqn:Ek; [ | reflexivity ].
    assert (Hk : In k (map fst (groupby_sum String.compare artist_key (rows df)))).
    { apply (artist_keys_of_export _ _ _ H). now exists ev. }
    rewrite E in Hk. contradiction.
  - intros Hall.
    destruct (groupby_sum String.compare artist_key (rows df)) as [ | [k s] g ] eqn:E;
      [ reflexivity | ].
    assert (Hk : In k (map fst (groupby_sum String.compare artist_key (rows df)))).
    { rewrite E. now left. }
    apply (artist_keys_of_export _ _ _ H) in Hk as (ev & Hev & Hs).
    apply Hall, text_of_None in Hev. unfold artist_of in Hs. congruence.
Qed.

(** [top_song], by cases on the export. *)
Lemma top_song_cases (qs : Quicksort) (evs : list Event) (df : DataFrame) :
  of_records evs = inr df ->
  top_song qs df
  = match evs with
    | [] => inr None
    | _ =>
        if existsb (fun e => present (ev_trackName e)) evs
           && existsb (fun e => present (ev_artistName e)) evs
        then
          match sort_values qs (groupby_sum song_cmp song_key (rows df)) with
          | [] => inl IndexError
          | top :: _ => s <- song_stat top ;; ret (Some s)
          end
        else inl KeyError
    end.
Proof.
  intros H. destruct (of_records_shape _ _ H) as (He & Ht & Ha).
  unfold top_song, grouped_songs. rewrite He, Ht, Ha.
  destruct evs as [ | ev evs ]; [ reflexivity | ].
  destruct (existsb (fun e => present (ev_trackName e)) (ev :: evs)
            && existsb (fun e => present (ev_artistName e)) (ev :: evs));
    [ | reflexivity ].
  cbn [bind ret]. destruct (sort_values qs _); reflexivity.
Qed.

Lemma top_artist_cases (qs : Quicksort) (evs : list Event) (df : DataFrame) :
  of_records evs = inr df ->
  top_artist qs df
  = match evs with
    | [] => inr None
    | _ =>
        if existsb (fun e => present (ev_artistName e)) evs
        then
          match sort_values qs (groupby_sum String.compare artist_key (rows df)) with
          | [] => inl IndexError
          | top :: _ => s <- artist_stat top ;; ret (Some s)
          end
        else inl KeyError
    end.
Proof.
  intros H. destruct (of_records_shape _ _ H) as (He & _ & Ha).
  unfold top_artist, grouped_artists. rewrite He, Ha.
  destruct evs as [ | ev evs ]; [ reflexivity | ].
  destruct (existsb (fun e => present (ev_artistName e)) (ev :: evs));
    [ | reflexivity ].
  cbn [bind ret]. destruct (sort_values qs _); reflexivity.
Qed.

Lemma top_3_songs_cases (qs : Quicksort) (evs : list Event) (df : DataFrame) (n : nat) :
  of_records evs = inr df ->
  top_3_songs qs df (Some n)
  = match evs with
    | [] => inr []
    | _ =>
        if existsb (fun e => present (ev_trackName e)) evs
           && existsb (fun e => present (ev_artistName e)) evs
        then mapM song_stat
               (firstn n (sort_values qs (groupby_sum song_cmp song_key (rows df))))
        else inl KeyError
    end.
Proof.
  intros H. destruct (of_records_shape _ _ H) as (He & Ht & Ha).
  unfold top_3_songs, grouped_songs, head. rewrite He, Ht, Ha.
  destruct evs as [ | ev evs ]; [ reflexivity | ].
  destruct (existsb (fun e => present (ev_trackName e)) (ev :: evs)
            && existsb (fun e => present (ev_artistName e)) (ev :: evs));
    reflexivity.
Qed.





Lemma mapM_nil {A B : Type} (f : A -> result B) (l : list A) :
  mapM f l = inr [] <-> l = [].
Proof.
  split; [ | intros ->; reflexivity ].
  intros H. apply mapM_length in H. destruct l; [ reflexivity | discriminate ].
Qed.

Lemma firstn_eq_nil {A : Type} (n : nat) (l : list A) :
  firstn n l = [] <-> n = 0%nat \/ l = [].
Proof.
  destruct n, l; cbn; split; intros H; auto; try discriminate;
    destruct H; discriminate.
Qed.

Lemma mapM_song_stat_error (l : list (string * string * float)) (e : exn) :
  mapM song_stat l = inl e -> e = ValueError \/ e = OverflowError.
Proof.
  intros H. apply mapM_raised in H as (g & _ & Hg). now apply song_stat_error in Hg.
Qed.



(** * Further facts: the lists the queries report *)

(** X4.  The list for a smaller [n] is the beginning of the list for a
    larger one: asking for fewer songs never changes which come first. *)
Theorem top_3_songs_prefix (qs : Quicksort) (df : DataFrame) (n m : nat)
  (l : list SongStat) :
  (n <= m)%nat ->
  top_3_songs qs df (Some m) = inr l ->
  top_3_songs qs df (Some n) = inr (firstn n l).
Proof.
  intros Hnm H. apply top_3_songs_inv in H as [ [He ->] | (He & g & Hg & Hl) ].
  - unfold top_3_songs. rewrite He. now rewrite firstn_nil.
  - unfold top_3_songs, head. rewrite He, Hg. cbn [bind].
    apply (mapM_firstn _ n) in Hl.
    rewrite firstn_firstn, Nat.min_l in Hl by assumption. exact Hl.
Qed.

Lemma top_3_songs_prefix_witness :
  top_3_songs insertion scenario_frame (Some 1%nat)
  = inr (firstn 1 [ {| song := "A"; artist := "X"; mins := 2 |};
                    {| song := "B"; artist := "X"; mins := 0 |} ]).
Proof.
  apply (top_3_songs_prefix insertion scenario_frame 1 3).
  - lia.
  - reflexivity.
Defined.

(** X5.  No song is listed twice: the (song, artist) pairs of a list that
    [top_3_songs] returns are all different. *)
Theorem top_3_songs_no_repeat (qs : Quicksort) (df : DataFrame) (n : nat)
  (l : list SongStat) :
  top_3_songs qs df (Some n) = inr l ->
  NoDup (map (fun s => (song s, artist s)) l).
Proof.
  intros H. apply top_3_songs_inv in H as [ [_ ->] | (_ & g & Hg & Hl) ].
  - constructor.
  - apply mapM_Forall2 in Hl. rewrite (song_stats_keys _ _ Hl), <- firstn_map.
    apply NoDup_firstn_of.
    apply (Permutation_NoDup
             (Permutation_map fst (Permutation_sym (sort_values_perm qs g)))).
    apply (key_sorted_NoDup song_cmp). exact (grouped_songs_sorted df g Hg).
Qed.

Lemma top_3_songs_no_repeat_witness :
  NoDup (map (fun s => (song s, artist s))
           [ {| song := "A"; artist := "X"; mins := 2 |};
             {| song := "B"; artist := "X"; mins := 0 |} ]).
Proof.
  apply (top_3_songs_no_repeat insertion scenario_frame 3). reflexivity.
Defined.

(** X6.  The queries report nothing that is not in the export: the song
    and artist of [top_song] and of every entry of [top_3_songs] are the
    strings under [trackName] and [artistName] of one same record, and the
    artist of [top_artist] is the string under [artistName] of some
    record. *)
Theorem reported_names_are_in_the_export (qs : Quicksort) (evs : list Event)
  (df : DataFrame) :
  of_records evs = inr df ->
  (forall s, top_song qs df = inr (Some s) ->
     exists ev t a, In ev evs /\ ev_trackName ev = Value t
                    /\ ev_artistName ev = Value a
                    /\ song s = text t /\ artist s = text a)
  /\ (forall s, top_artist qs df = inr (Some s) ->
        exists ev a, In ev evs /\ ev_artistName ev = Value a
                     /\ a_artist s = text a)
  /\ (forall n l s, top_3_songs qs df (Some n) = inr l -> In s l ->
        exists ev t a, In ev evs /\ ev_trackName ev = Value t
                       /\ ev_artistName ev = Value a
                       /\ song s = text t /\ artist s = text a).
Proof.
  intros H.
  assert (S : forall h s, In h (groupby_sum song_cmp song_key (rows df)) ->
                song_stat h = inr s ->
                exists ev t a, In ev evs /\ ev_trackName ev = Value t
                               /\ ev_artistName ev = Value a
                               /\ song s = text t /\ artist s = text a).
  { intros h s Hh Hs.
    destruct (listed_song evs df h s H Hh Hs) as (_ & _ & Hk & _).
    apply songs_of_In in Hk as (ev & Hev & Hk).
    apply song_of_Some in Hk as [Ht Ha]. cbn in Ht, Ha.
    apply text_of_Some in Ht as (t & Ht & Et), Ha as (a & Ha & Ea).
    exists ev, t, a. repeat split; try assumption; now symmetry. }
  split; [ | split ].
  - intros s Hs. apply top_song_inv in Hs as (_ & g & top & rest & Hg & Es & Hst).
    apply grouped_songs_table in Hg. subst g. apply (S top s); [ | exact Hst ].
    apply (Permutation_in _ (sort_values_perm qs _)). rewrite Es. now left.
  - intros s Hs. apply top_artist_inv in Hs as (_ & g & top & rest & Hg & Es & Hst).
    apply grouped_artists_table in Hg. subst g.
    apply artist_stat_inv in Hst as (E & _).
    assert (Hin : In top (groupby_sum String.compare artist_key (rows df))).
    { apply (Permutation_in _ (sort_values_perm qs _)). rewrite Es. now left. }
    destruct top as [k m]. cbn in E.
    apply (artists_table_In evs df _ _ H) in Hin as [(ev & Hev & Hk) _].
    apply text_of_Some in Hk as (a & Ha & Ea).
    exists ev, a. repeat split; try assumption. congruence.
  - intros n l s Hl Hs.
    apply top_3_songs_inv in Hl as [ [_ ->] | (_ & g & Hg & Hl) ]; [ contradiction | ].
    apply grouped_songs_table in Hg. subst g.
    apply mapM_Forall2 in Hl.
    destruct (Forall2_In_r _ _ _ _ Hl Hs) as (h & Hh & Hst).
    apply (S h s); [ | exact Hst ].
    apply (Permutation_in _ (sort_values_perm qs _)).
    rewrite <- (firstn_skipn n (sort_values qs _)). apply in_or_app. now left.
Qed.

Lemma reported_names_are_in_the_export_witness :
  of_records scenario = inr scenario_frame
  /\ exists ev t a, In ev scenario /\ ev_trackName ev = Value t
                    /\ ev_artistName ev = Value a
                    /\ "A" = text t /\ "X" = text a.
Proof.
  split; [ reflexivity | ].
  exact (proj1 (reported_names_are_in_the_export
                  insertion scenario scenario_frame eq_refl)
           {| song := "A"; artist := "X"; mins := 2 |} eq_refl).
Defined.

(** * Further facts: the part of [msPlayed] *)

Lemma played_minutes_of_field (evs : list Event) :
  map played_minutes evs
  = map (fun c => match duration_of c with Some x => x | None => 0%float end)
      (map ev_msPlayed evs).
Proof. rewrite map_map. reflexivity. Qed.

(** X7.  [total_minutes] looks at [msPlayed] only: two exports whose records
    hold the same [msPlayed] fields, in the same order, are both refused by
    the constructor or both accepted, and then have the same total, whatever
    their track and artist names, missing ones included. *)
Theorem total_minutes_ignores_names (evs evs' : list Event) :
  map ev_msPlayed evs = map ev_msPlayed evs' ->
  ((exists e, of_records evs = inl e) <-> (exists e, of_records evs' = inl e))
  /\ forall df df',
       of_records evs = inr df -> of_records evs' = inr df' ->
       total_minutes df = total_minutes df'.
Proof.
  intros H. split.
  - rewrite !of_records_raises, H. reflexivity.
  - intros df df' Hdf Hdf'.
    rewrite (total_minutes_played _ _ Hdf), (total_minutes_played _ _ Hdf').
    now rewrite !played_minutes_of_field, H.
Qed.

Lemma total_minutes_ignores_names_witness :
  map ev_msPlayed scenario = map ev_msPlayed renamed_scenario
  /\ of_records renamed_scenario = inr renamed_frame
  /\ total_minutes scenario_frame = total_minutes renamed_frame.
Proof.
  split; [ reflexivity | ]. split; [ reflexivity | ].
  exact (proj2 (total_minutes_ignores_names scenario renamed_scenario eq_refl)
           scenario_frame renamed_frame eq_refl eq_refl).
Defined.

Lemma kahan_sum_nil_zero (evs : list Event) (p : Event -> bool) :
  (forall ev, In ev evs -> cell (ev_msPlayed ev) = None) ->
  kahan_sum (minutes_of p evs) = 0%float.
Proof.
  intros Hno. unfold minutes_of.
  replace (flat_map _ (filter p evs)) with (@nil float); [ reflexivity | ].
  symmetry. induction evs as [ | e evs IH ]; cbn; [ reflexivity | ].
  assert (IH' : flat_map
                  (fun e => match duration e with Some x => [x] | None => [] end)
                  (filter p evs) = []).
  { apply IH. intros ev Hev. apply Hno. now right. }
  destruct (p e); [ | exact IH' ].
  cbn. unfold duration, duration_of. rewrite (Hno e) by now left. exact IH'.
Qed.

(** X8.  An export in which no record has a value under [msPlayed] (the key
    is missing, or null) is accepted, its total is 0 and every count the
    queries report is 0. *)
Theorem export_without_durations (qs : Quicksort) (evs : list Event) :
  (forall ev, In ev evs -> cell (ev_msPlayed ev) = None) ->
  exists df,
    of_records evs = inr df
    /\ total_minutes df = inr 0
    /\ (forall s, top_song qs df = inr (Some s) -> mins s = 0)
    /\ (forall s, top_artist qs df = inr (Some s) -> a_mins s = 0)
    /\ (forall n l, top_3_songs qs df (Some n) = inr l ->
          Forall (fun s => mins s = 0) l).
Proof.
  intros Hno.
  destruct (of_records evs) as [ e | df ] eqn:Hdf.
  { exfalso. destruct (proj1 (of_records_raises evs)) as (c & Hc & e' & He');
      [ now exists e | ].
    apply in_map_iff in Hc as (ev & <- & Hev). rewrite (Hno ev Hev) in He'.
    discriminate. }
  exists df. split; [ reflexivity | ].
  assert (HS : forall h s, In h (groupby_sum song_cmp song_key (rows df)) ->
                 song_stat h = inr s -> mins s = 0).
  { intros h s Hh Hs.
    destruct (listed_song evs df h s Hdf Hh Hs) as (_ & _ & _ & Hm).
    unfold song_minutes in Hm. rewrite (kahan_sum_nil_zero _ _ Hno) in Hm.
    cbn in Hm. now injection Hm. }
  split; [ | split; [ | split ] ].
  - destruct (of_records_map _ _ Hdf) as [_ HR].
    unfold total_minutes. apply nansum_zero. rewrite HR, map_map.
    rewrite Forall_forall. intros c Hc. apply in_map_iff in Hc as (ev & <- & Hev).
    cbn. unfold duration, duration_of. rewrite (Hno ev Hev). cbn.
    destruct (has_msPlayed evs); auto.
  - intros s Hs. apply top_song_inv in Hs as (_ & g & top & rest & Hg & Es & Hst).
    apply grouped_songs_table in Hg. subst g. apply (HS top s); [ | exact Hst ].
    apply (Permutation_in _ (sort_values_perm qs _)). rewrite Es. now left.
  - intros s Hs. apply top_artist_inv in Hs as (_ & g & top & rest & Hg & Es & Hst).
    apply grouped_artists_table in Hg. subst g.
    apply artist_stat_inv in Hst as (_ & Hm).
    assert (Hin : In top (groupby_sum String.compare artist_key (rows df))).
    { apply (Permutation_in _ (sort_values_perm qs _)). rewrite Es. now left. }
    destruct top as [k m]. cbn in Hm.
    apply (artists_table_In evs df _ _ Hdf) in Hin as [_ ->].
    unfold artist_minutes in Hm. rewrite (kahan_sum_nil_zero _ _ Hno) in Hm.
    cbn in Hm. now injection Hm.
  - intros n l Hl.
    apply top_3_songs_inv in Hl as [ [_ ->] | (_ & g & Hg & Hl) ];
      [ constructor | ].
    apply grouped_songs_table in Hg. subst g. apply mapM_Forall2 in Hl.
    rewrite Forall_forall. intros s Hs.
    destruct (Forall2_In_r _ _ _ _ Hl Hs) as (h & Hh & Hst).
    apply (HS h s); [ | exact Hst ].
    apply (Permutation_in _ (sort_values_perm qs _)).
    rewrite <- (firstn_skipn n (sort_values qs _)). apply in_or_app. now left.
Qed.

Lemma export_without_durations_witness :
  exists df,
    of_records
      [ {| ev_trackName := Value (name "B"); ev_artistName := Value (name "X");
           ev_msPlayed := Absent |};
        {| ev_trackName := Value (name "A"); ev_artistName := Value (name "X");
           ev_msPlayed := Null |} ] = inr df
    /\ total_minutes df = inr 0.
Proof.
  destruct (export_without_durations insertion
              [ {| ev_trackName := Value (name "B"); ev_artistName := Value (name "X");
                   ev_msPlayed := Absent |};
                {| ev_trackName := Value (name "A"); ev_artistName := Value (name "X");
                   ev_msPlayed := Null |} ]) as (df & H1 & H2 & _).
  - intros ev [ <- | [ <- | [] ] ]; reflexivity.
  - exists df. now split.
Defined.

(** * Further facts: loading and the route *)


Lemma analyze_unfold (qs : Quicksort)
  (parse_document parse_lines : list byte -> option (list Event))
  (file : App.FileStorage) :
  App.missing (Some file) = false ->
  App.analyze qs parse_document parse_lines (Some file)
  = match loaded parse_document parse_lines (unread file) with
    | Some evs =>
        stats <- of_records evs ;;
        total <- total_minutes stats ;;
        ts <- top_song qs stats ;;
        ta <- top_artist qs stats ;;
        t3 <- top_3_songs qs stats None ;;
        ret (App.Page "result.html"
               (Some {| App.total := total; App.top_song := ts;
                        App.top_artist := ta; App.top3 := t3 |}))
    | None => inl ValueError
    end.
Proof.
  intros H. unfold App.analyze. rewrite H.
  change (fst (read (App.stream file))) with (unread file).
  rewrite init_loaded.
  destruct (loaded parse_document parse_lines (unread file)); reflexivity.
Qed.

(** X10.  The route [analyze] answers with a redirect exactly when the
    request has no file part or a part without a file name, and the redirect
    goes to the index page; nothing of the upload is looked at then. *)
Theorem analyze_redirects_without_file (qs : Quicksort)
  (parse_document parse_lines : list byte -> option (list Event))
  (f : option App.FileStorage) (location : string) :
  App.analyze qs parse_document parse_lines f = inr (App.Redirect location)
  <-> App.missing f = true /\ location = App.index_url.
Proof.
  destruct f as [ file | ].
  - destruct (App.missing (Some file)) eqn:M.
    + unfold App.analyze. rewrite M. split.
      * intros H. injection H as <-. now split.
      * intros [_ ->]. reflexivity.
    + rewrite (analyze_unfold _ _ _ _ M). split; [ | intros [C _]; discriminate ].
      destruct (loaded parse_document parse_lines (unread file)); [ | discriminate ].
      destruct (of_records l) as [ e | df ]; cbn; [ discriminate | ].
      destruct (total_minutes df); cbn; [ discriminate | ].
      destruct (top_song qs df); cbn; [ discriminate | ].
      destruct (top_artist qs df); cbn; [ discriminate | ].
      destruct (top_3_songs qs df None); cbn; discriminate.
  - cbn. split.
    + intros H. injection H as <-. now split.
    + intros [_ ->]. reflexivity.
Qed.

(** X11.  A page that [analyze] renders is [result.html] with the results of
    the four queries on the frame of the export read from the unread part of
    the upload: the total, the top song, the top artist and the top three
    songs. *)
Theorem analyze_page_shows_the_queries (qs : Quicksort)
  (parse_document parse_lines : list byte -> option (list Event))
  (f : option App.FileStorage) (template : string) (context : option App.Stats) :
  App.analyze qs parse_document parse_lines f = inr (App.Page template context) ->
  template = "result.html"
  /\ exists file evs df st,
       f = Some file
       /\ App.filename file <> ""
       /\ loaded parse_document parse_lines (unread file) = Some evs
       /\ of_records evs = inr df
       /\ context = Some st
       /\ total_minutes df = inr (App.total st)
       /\ top_song qs df = inr (App.top_song st)
       /\ top_artist qs df = inr (App.top_artist st)
       /\ top_3_songs qs df (Some 3%nat) = inr (App.top3 st).
Proof.
  destruct f as [ file | ]; [ | discriminate ].
  destruct (App.missing (Some file)) eqn:M.
  { unfold App.analyze. rewrite M. discriminate. }
  rewrite (analyze_unfold _ _ _ _ M).
  destruct (loaded parse_document parse_lines (unread file)) as [ evs | ] eqn:EL;
    [ | discriminate ].
  destruct (of_records evs) as [ e | df ] eqn:Edf; cbn; [ discriminate | ].
  destruct (total_minutes df) as [ e | total ] eqn:E1; cbn; [ discriminate | ].
  destruct (top_song qs df) as [ e | ts ] eqn:E2; cbn; [ discriminate | ].
  destruct (top_artist qs df) as [ e | ta ] eqn:E3; cbn; [ discriminate | ].
  destruct (top_3_songs qs df None) as [ e | t3 ] eqn:E4; cbn; [ discriminate | ].
  intros H. injection H as <- <-. split; [ reflexivity | ].
  exists file, evs, df,
    {| App.total := total; App.top_song := ts; App.top_artist := ta; App.top3 := t3 |}.
  repeat split; try assumption; try reflexivity.
  cbn in M. intros C. rewrite C in M. discriminate.
Qed.

Lemma analyze_page_shows_the_queries_witness :
  "result.html" = "result.html"
  /\ exists file evs df st,
       Some {| App.filename := "history.json";
               App.stream := {| getvalue := []; tell := 0 |} |} = Some file
       /\ App.filename file <> ""
       /\ loaded (fun _ => Some scenario) (fun _ => None) (unread file) = Some evs
       /\ of_records evs = inr df
       /\ Some {| App.total := 2;
                  App.top_song := Some {| song := "A"; artist := "X"; mins := 2 |};
                  App.top_artist := Some {| a_artist := "X"; a_mins := 2 |};
                  App.top3 := [ {| song := "A"; artist := "X"; mins := 2 |};
                                {| song := "B"; artist := "X"; mins := 0 |} ] |}
          = Some st
       /\ total_minutes df = inr (App.total st)
       /\ top_song insertion df = inr (App.top_song st)
       /\ top_artist insertion df = inr (App.top_artist st)
       /\ top_3_songs insertion df (Some 3%nat) = inr (App.top3 st).
Proof.
  apply (analyze_page_shows_the_queries insertion
           (fun _ => Some scenario) (fun _ => None)).
  reflexivity.
Defined.

(** X12.  [analyze] renders nothing and lets an exception out when both
    readers refuse the upload (ValueError), and when the export has records
    of which none has the key [trackName], or none the key [artistName]. *)
Theorem analyze_raises (qs : Quicksort)
  (parse_document parse_lines : list byte -> option (list Event))
  (file : App.FileStorage) :
  App.filename file <> "" ->
  (loaded parse_document parse_lines (unread file) = None ->
   App.analyze qs parse_document parse_lines (Some file) = inl ValueError)
  /\ (forall evs,
        loaded parse_document parse_lines (unread file) = Some evs ->
        evs <> [] ->
        (forall ev, In ev evs -> ev_trackName ev = Absent)
        \/ (forall ev, In ev evs -> ev_artistName ev = Absent) ->
        exists e, App.analyze qs parse_document parse_lines (Some file) = inl e).
Proof.
  intros Hname.
  assert (M : App.missing (Some file) = false).
  { cbn. destruct (App.filename file =? "")%string eqn:E; [ | reflexivity ].
    apply String.eqb_eq in E. contradiction. }
  rewrite (analyze_unfold _ _ _ _ M). split.
  - intros ->. reflexivity.
  - intros evs -> NE Habs.
    destruct (of_records evs) as [ e | df ] eqn:Edf; cbn; [ now exists e | ].
    destruct (total_minutes df) as [ e | total ]; cbn; [ now exists e | ].
    exists KeyError. rewrite (top_song_cases qs _ _ Edf).
    destruct evs as [ | ev0 evs ]; [ now contradiction NE | ].
    destruct Habs as [ Habs | Habs ]; apply existsb_present_false in Habs;
      rewrite Habs; [ reflexivity | ].
    now rewrite andb_false_r.
Qed.

Lemma analyze_raises_witness :
  "history.json" <> ""
  /\ App.analyze insertion (fun _ => None) (fun _ => None)
       (Some {| App.filename := "history.json";
                App.stream := {| getvalue := []; tell := 0 |} |})
     = inl ValueError.
Proof.
  split; [ discriminate | ].
  apply (analyze_raises insertion (fun _ => None) (fun _ => None)
           {| App.filename := "history.json";
              App.stream := {| getvalue := []; tell := 0 |} |}).
  - discriminate.
  - reflexivity.
Defined.

(** X13.  An upload that is read as an export of no record is no error:
    [analyze] renders [result.html] with total 0, no top song, no top artist
    and an empty list. *)
Theorem analyze_empty_export (qs : Quicksort)
  (parse_document parse_lines : list byte -> option (list Event))
  (file : App.FileStorage) :
  App.filename file <> "" ->
  loaded parse_document parse_lines (unread file) = Some [] ->
  App.analyze qs parse_document parse_lines (Some file)
  = inr (App.Page "result.html"
           (Some {| App.total := 0; App.top_song := None;
                    App.top_artist := None; App.top3 := [] |})).
Proof.
  intros Hname HL.
  assert (M : App.missing (Some file) = false).
  { cbn. destruct (App.filename file =? "")%string eqn:E; [ | reflexivity ].
    apply String.eqb_eq in E. contradiction. }
  rewrite (analyze_unfold _ _ _ _ M), HL. reflexivity.
Qed.

Lemma analyze_empty_export_witness :
  App.analyze insertion (fun _ => Some []) (fun _ => None)
    (Some {| App.filename := "history.json";
             App.stream := {| getvalue := []; tell := 0 |} |})
  = inr (App.Page "result.html"
           (Some {| App.total := 0; App.top_song := None;
                    App.top_artist := None; App.top3 := [] |})).
Proof.
  apply (analyze_empty_export insertion (fun _ => Some []) (fun _ => None)).
  - discriminate.
  - reflexivity.
Defined.

(** * Further facts: the order of the records *)

Lemma sorted_keys_unique {K : Type} (cmp : K -> K -> comparison) `{!KeyOrder cmp}
  (l l' : list K) :
  StronglySorted (fun a b => cmp a b = Lt) l ->
  StronglySorted (fun a b => cmp a b = Lt) l' ->
  (forall k, In k l <-> In k l') ->
  l = l'.
Proof.
  intros HS. revert l'. induction HS as [ | a l HS IH HF ]; intros l' HS' Hin.
  - destruct l' as [ | b l' ]; [ reflexivity | ].
    destruct (proj2 (Hin b)). now left.
  - destruct HS' as [ | b l' HS' HF' ].
    + destruct (proj1 (Hin a)). now left.
    + rewrite Forall_forall in HF, HF'.
      assert (E : a = b).
      { destruct (proj1 (Hin a)) as [ E | Ha ]; [ now left | now symmetry | ].
        destruct (proj2 (Hin b)) as [ E | Hb ]; [ now left | exact E | ].
        pose proof (HF' _ Ha) as H1. pose proof (HF _ Hb) as H2.
        pose proof (cmp_trans _ _ _ H1 H2) as H3. rewrite cmp_refl in H3.
        discriminate. }
      subst b. f_equal. apply IH; [ exact HS' | ].
      intros k. split; intros Hk.
      * destruct (proj1 (Hin k)) as [ E | Hk' ]; [ now right | | exact Hk' ].
        subst k. specialize (HF _ Hk). rewrite cmp_refl in HF. discriminate.
      * destruct (proj2 (Hin k)) as [ E | Hk' ]; [ now right | | exact Hk' ].
        subst k. specialize (HF' _ Hk). rewrite cmp_refl in HF'. discriminate.
Qed.

(** X14.  The place of the records in the export has no part in what the
    groups are: for two exports with the same records in any order, the
    grouping by song raises KeyError for both or for neither, and the tables
    of songs, and of artists, list the same keys in the same order. *)
Theorem group_keys_ignore_record_order (evs evs' : list Event) (df df' : DataFrame) :
  Permutation evs evs' ->
  of_records evs = inr df -> of_records evs' = inr df' ->
  (grouped_songs df = inl KeyError <-> grouped_songs df' = inl KeyError)
  /\ map fst (groupby_sum song_cmp song_key (rows df))
     = map fst (groupby_sum song_cmp song_key (rows df'))
  /\ map fst (groupby_sum String.compare artist_key (rows df))
     = map fst (groupby_sum String.compare artist_key (rows df')).
Proof.
  intros HP H H'. split; [ | split ].
  - destruct (of_records_perm_shape _ _ _ _ HP H H') as (_ & Ht & Ha).
    unfold grouped_songs. rewrite Ht, Ha.
    destruct (has_column "trackName" df && has_column "artistName" df);
      split; intros C; try reflexivity; discriminate.
  - apply (sorted_keys_unique song_cmp).
    + apply (groupby_sorted song_cmp).
    + apply (groupby_sorted song_cmp).
    + intros k. rewrite (song_keys_of_export _ _ _ H), (song_keys_of_export _ _ _ H').
      split; intros (ev & Hev & Hk); exists ev; (split; [ | exact Hk ]).
      * now apply (Permutation_in _ HP).
      * now apply (Permutation_in _ (Permutation_sym HP)).
  - apply (sorted_keys_unique String.compare).
    + apply (groupby_sorted String.compare).
    + apply (groupby_sorted String.compare).
    + intros k.
      rewrite (artist_keys_of_export _ _ _ H), (artist_keys_of_export _ _ _ H').
      split; intros (ev & Hev & Hk); exists ev; (split; [ | exact Hk ]).
      * now apply (Permutation_in _ HP).
      * now apply (Permutation_in _ (Permutation_sym HP)).
Qed.

Lemma group_keys_ignore_record_order_witness :
  exists df',
    of_records (rev scenario) = inr df'
    /\ map fst (groupby_sum song_cmp song_key (rows scenario_frame))
       = map fst (groupby_sum song_cmp song_key (rows df')).
Proof.
  eexists. split; [ reflexivity | ].
  refine (proj1 (proj2 (group_keys_ignore_record_order
                          scenario (rev scenario) scenario_frame _ _ eq_refl _))).
  - apply Permutation_rev.
  - reflexivity.
Defined.
